(** * Production system: forward and backward chaining

    A shallow embedding of the Go package [production_system]
    (rule-based inference over atomic facts) and the properties of its
    two chaining strategies.

    The repository holds the same logic in several files.  The reference
    implementation is the documented [Interpreter], whose [Forward] and
    [Backward] both return rule names; a second copy, [Engine], differs
    in three places that matter below and is embedded next to it. *)

From Stdlib Require Import Ascii.
From stdpp Require Import gmap strings list fin_maps.

Set Default Proof Using "Type".
Open Scope string_scope.
Open Scope list_scope.
Open Scope nat_scope.

(** ** Data model *)

(** A [*Fact] is only ever compared with [==], i.e. by address.  The
    facts of one knowledge base are the elements of the unmarshalled
    [jsonEngine.Facts] slice, each its own allocation: the address of a
    fact is modelled by its position in that slice. *)
Definition FactPtr := nat.

(** [type Fact struct { Name string; SemanticValue string }] *)
Record Fact := mkFact {
  Fact_Name : string;
  SemanticValue : string
}.

(** [type Rule struct { Name string; Conditionals []*Fact; Derivation *Fact }]
    Rules are never compared; a [*Rule] is modelled by the rule. *)
Record Rule := mkRule {
  Name : string;
  Conditionals : list FactPtr;
  Derivation : FactPtr
}.

(** [type Interpreter struct { Facts map[string]*Fact; Rules []*Rule }]
    (the second copy calls the same struct [Engine]). *)
Record Interpreter := mkInterpreter {
  Facts : gmap string FactPtr;
  Rules : list Rule
}.

(** [type JSONRule struct { Name string; Conditionals []string; Derivation string }] *)
Record JSONRule := mkJSONRule {
  JSONRule_Name : string;
  JSONRule_Conditionals : list string;
  JSONRule_Derivation : string
}.

(** [type JSONInterpreter struct { Facts []*Fact; Rules []*JSONRule }] *)
Record JSONInterpreter := mkJSONInterpreter {
  JSON_Facts : list Fact;
  JSON_Rules : list JSONRule
}.

(** A Go [error] built by [errors.New]: its message. *)
Definition error := string.

(** [func in(facts []*Fact, fact *Fact) bool] *)
Fixpoint in_ (facts : list FactPtr) (fact : FactPtr) : bool :=
  match facts with
  | [] => false
  | f :: rest => if Nat.eqb f fact then true else in_ rest fact
  end.

(** ** Forward chaining: the body of one round

    The three nested loops of [forward], innermost first.  Each takes
    the variables the loop updates and returns them after the loop. *)

(** [for _, conditional := range rule.Conditionals { if conditional == trFact { matches++ } }] *)
Fixpoint countMatches (conditionals : list FactPtr) (trFact : FactPtr)
    (matches : nat) : nat :=
  match conditionals with
  | [] => matches
  | conditional :: rest =>
      countMatches rest trFact
        (if Nat.eqb conditional trFact then S matches else matches)
  end.

(** [for _, trFact := range trueFacts { if rule.Derivation == trFact
    { derived = false } else { ... matches++ ... } }] *)
Fixpoint scanTrueFacts (rule : Rule) (trueFacts : list FactPtr)
    (matches : nat) (derived : bool) : nat * bool :=
  match trueFacts with
  | [] => (matches, derived)
  | trFact :: rest =>
      if Nat.eqb (Derivation rule) trFact
      then scanTrueFacts rule rest matches false
      else scanTrueFacts rule rest
             (countMatches (Conditionals rule) trFact matches) derived
  end.

(** The test [derived && matches == len(rule.Conditionals)] on the
    counters of a fresh scan ([matches := 0], [derived := true]). *)
Definition fires (rule : Rule) (trueFacts : list FactPtr) : bool :=
  let '(matches, derived) := scanTrueFacts rule trueFacts 0 true in
  derived && Nat.eqb matches (length (Conditionals rule)).

(** [for _, rule := range e.Rules { ... if derived && matches == len(...)
    { resultFacts = append(resultFacts, rule.Derivation);
      usedRules = append(usedRules, rule) } }] *)
Fixpoint scanRules (rules : list Rule) (trueFacts : list FactPtr)
    (resultFacts : list FactPtr) (usedRules : list Rule)
    : list FactPtr * list Rule :=
  match rules with
  | [] => (resultFacts, usedRules)
  | rule :: rest =>
      if fires rule trueFacts
      then scanRules rest trueFacts
             (resultFacts ++ [Derivation rule]) (usedRules ++ [rule])
      else scanRules rest trueFacts resultFacts usedRules
  end.

(** [for _, resultFact := range resultFacts { trueFacts = append(trueFacts, resultFact) }] *)
Fixpoint appendAll (trueFacts resultFacts : list FactPtr) : list FactPtr :=
  match resultFacts with
  | [] => trueFacts
  | resultFact :: rest => appendAll (trueFacts ++ [resultFact]) rest
  end.

(** ** Name resolution *)

(** The loop of [_convertNames] over [trueFactNames]; [shown] is what
    the error message prints for a name that is not registered. *)
Fixpoint convertLoop (facts : gmap string FactPtr) (shown : string -> string)
    (trueFactNames : list string) (trueFacts : list FactPtr)
    : error + list FactPtr :=
  match trueFactNames with
  | [] => inr trueFacts
  | trFactName :: rest =>
      match facts !! trFactName with
      | Some fact => convertLoop facts shown rest (trueFacts ++ [fact])
      | None => inl ("Unknown fact: " +:+ shown trFactName)
      end
  end.

(** ** Backward chaining: the loops of [_isDerivable]

    [check] is the condition of the [if] in the loop over the
    conditionals (it contains the recursive call, so it may fail to
    return: [None]). *)
Fixpoint countDerivable (check : FactPtr -> option bool)
    (conditionals : list FactPtr) (derivableCount : nat) : option nat :=
  match conditionals with
  | [] => Some derivableCount
  | conditional :: rest =>
      match check conditional with
      | None => None
      | Some true => countDerivable check rest (S derivableCount)
      | Some false => countDerivable check rest derivableCount
      end
  end.

(** What a call of [_isDerivable] leaves behind: the returned [bool]
    and the callee's own [trueFacts] and [usedRules] variables as they
    stand at the [return].  Go passes slice headers by value, so the two
    slices are the callee's copies, not the caller's variables: an
    [append] in the callee gives the callee a longer slice and leaves
    the length of the caller's slice as it was.  Where the backing array
    is shared, the appended element lies beyond that length, and no
    caller reads there; the caller's slices are therefore the same lists
    after the call as before. *)
Record Call := mkCall {
  returned : bool;
  local_trueFacts : list FactPtr;
  local_usedRules : list Rule
}.

(** [for _, rule := range e.Rules { if rule.Derivation == fact { ... } }
    return false] *)
Fixpoint tryRules (check : FactPtr -> option bool) (rules : list Rule)
    (trueFacts : list FactPtr) (fact : FactPtr) (usedRules : list Rule)
    : option Call :=
  match rules with
  | [] => Some (mkCall false trueFacts usedRules)
  | rule :: rest =>
      if Nat.eqb (Derivation rule) fact then
        match countDerivable check (Conditionals rule) 0 with
        | None => None
        | Some derivableCount =>
            if Nat.eqb derivableCount (length (Conditionals rule))
            then Some (mkCall true (trueFacts ++ [Derivation rule])
                                   (usedRules ++ [rule]))
            else tryRules check rest trueFacts fact usedRules
        end
      else tryRules check rest trueFacts fact usedRules
  end.

(** What [Forward] and [Backward] return:
    [(isDerived bool, usedRulesNames []string, err error)];
    a nil slice is the empty list, a nil error is [None]. *)
Definition Answer : Type := bool * list string * option error.

(** How [fmt] prints a [[]string] under [%v] and [%+v]: [[a b c]]. *)
Fixpoint joinSpace (names : list string) : string :=
  match names with
  | [] => ""
  | [name] => name
  | name :: rest => name +:+ " " +:+ joinSpace rest
  end.

Definition showNames (names : list string) : string :=
  "[" +:+ joinSpace names +:+ "]".

(** [%+v] of a [*Fact] and [%v] of a [*JSONRule]. *)
Definition showFact (fact : Fact) : string :=
  "&{Name:" +:+ Fact_Name fact +:+ " SemanticValue:" +:+ SemanticValue fact +:+ "}".

Definition showJSONRule (jrule : JSONRule) : string :=
  "&{" +:+ JSONRule_Name jrule +:+ " "
       +:+ showNames (JSONRule_Conditionals jrule) +:+ " "
       +:+ JSONRule_Derivation jrule +:+ "}".

(** ** The reference implementation *)

Module Interpreter.

(** The [for { ... }] loop of [forward].  [fuel] bounds the number of
    rounds: [None] means the loop has not returned after [fuel] rounds. *)
Fixpoint forward_loop (fuel : nat) (e : Interpreter)
    (trueFacts : list FactPtr) (query : FactPtr) (usedRules : list Rule)
    : option (bool * list Rule) :=
  match fuel with
  | O => None
  | S fuel' =>
      let '(resultFacts, usedRules') := scanRules (Rules e) trueFacts [] usedRules in
      let trueFacts' := appendAll trueFacts resultFacts in
      if Nat.eqb (length resultFacts) 0
      then Some (in_ trueFacts' query, usedRules')
      else forward_loop fuel' e trueFacts' query usedRules'
  end.

(** [func (e *Interpreter) forward(trueFacts []*Fact, query *Fact) (bool, []*Rule)] *)
Definition forward (fuel : nat) (e : Interpreter)
    (trueFacts : list FactPtr) (query : FactPtr) : option (bool * list Rule) :=
  let usedRules := [] in
  forward_loop fuel e trueFacts query usedRules.

(** [func (e *Interpreter) _isDerivable(trueFacts []*Fact, fact *Fact,
    usedRules []*Rule) bool].  [fuel] bounds the depth of the recursion.
    The condition of the inner [if] is
    [in(trueFacts, conditional) && e._isDerivable(...)]: the call is
    made only when the membership test holds. *)
Fixpoint _isDerivable (fuel : nat) (e : Interpreter)
    (trueFacts : list FactPtr) (fact : FactPtr) (usedRules : list Rule)
    : option Call :=
  match fuel with
  | O => None
  | S fuel' =>
      if in_ trueFacts fact then Some (mkCall true trueFacts usedRules)
      else
        tryRules
          (fun conditional =>
             if in_ trueFacts conditional
             then option_map returned
                    (_isDerivable fuel' e trueFacts conditional usedRules)
             else Some false)
          (Rules e) trueFacts fact usedRules
  end.

(** [func (e *Interpreter) backward(trueFacts []*Fact, query *Fact) (bool, []*Rule)]:
    returns its own [usedRules] variable, of which the callee got a copy. *)
Definition backward (fuel : nat) (e : Interpreter)
    (trueFacts : list FactPtr) (query : FactPtr) : option (bool * list Rule) :=
  let usedRules := [] in
  match _isDerivable fuel e trueFacts query usedRules with
  | None => None
  | Some call => Some (returned call, usedRules)
  end.

(** [func (e *Interpreter) _convertNames(trueFactNames []string,
    queryName string) ([]*Fact, *Fact, error)] *)
Definition _convertNames (e : Interpreter) (trueFactNames : list string)
    (queryName : string) : error + (list FactPtr * FactPtr) :=
  match convertLoop (Facts e) (fun trFactName => trFactName) trueFactNames [] with
  | inl err => inl err
  | inr trueFacts =>
      match Facts e !! queryName with
      | None => inl ("Unknown fact: " +:+ queryName)
      | Some queryFact => inr (trueFacts, queryFact)
      end
  end.

(** [func (e *Interpreter) Forward(trueFactNames []string, queryName string)
    (bool, []string, error)] *)
Definition Forward (fuel : nat) (e : Interpreter)
    (trueFactNames : list string) (queryName : string) : option Answer :=
  match _convertNames e trueFactNames queryName with
  | inl err => Some (false, [], Some err)
  | inr (trueFacts, queryFact) =>
      match forward fuel e trueFacts queryFact with
      | None => None
      | Some (isDerived, usedRules) => Some (isDerived, map Name usedRules, None)
      end
  end.

(** [func (e *Interpreter) Backward(trueFactNames []string, queryName string)
    (bool, []string, error)] *)
Definition Backward (fuel : nat) (e : Interpreter)
    (trueFactNames : list string) (queryName : string) : option Answer :=
  match _convertNames e trueFactNames queryName with
  | inl err => Some (false, [], Some err)
  | inr (trueFacts, queryFact) =>
      match backward fuel e trueFacts queryFact with
      | None => None
      | Some (isDerived, usedRules) => Some (isDerived, map Name usedRules, None)
      end
  end.

(** *** The loader, [_fromJSONEngine] *)

(** [for _, fact := range jsonEngine.Facts { ... engine.Facts[fact.Name] = fact }];
    [ptr] is the address of the fact at the head of [facts]. *)
Fixpoint registerFacts (facts : list Fact) (ptr : FactPtr)
    (known : gmap string FactPtr) : error + gmap string FactPtr :=
  match facts with
  | [] => inr known
  | fact :: rest =>
      match known !! Fact_Name fact with
      | Some _ => inl ("Doubled fact: " +:+ showFact fact)
      | None => registerFacts rest (S ptr) (<[Fact_Name fact := ptr]> known)
      end
  end.

(** [for _, conditional := range jrule.Conditionals { ... }] *)
Fixpoint resolveConditionals (facts : gmap string FactPtr) (jrule : JSONRule)
    (names : list string) (conditionals : list FactPtr) : error + list FactPtr :=
  match names with
  | [] => inr conditionals
  | conditional :: rest =>
      match facts !! conditional with
      | None => inl ("Unknown fact name " +:+ conditional +:+ " in rule "
                       +:+ showJSONRule jrule)
      | Some fact => resolveConditionals facts jrule rest (conditionals ++ [fact])
      end
  end.

(** [for _, jrule := range jsonEngine.Rules { ... }].  Nothing is ever
    stored in [knownRules], so its test never holds. *)
Fixpoint buildRules (facts : gmap string FactPtr) (knownRules : gset string)
    (jrules : list JSONRule) (rules : list Rule) : error + list Rule :=
  match jrules with
  | [] => inr rules
  | jrule :: rest =>
      if bool_decide (JSONRule_Name jrule ∈ knownRules)
      then inl ("Doubled rule: " +:+ showJSONRule jrule)
      else
        match resolveConditionals facts jrule (JSONRule_Conditionals jrule) [] with
        | inl err => inl err
        | inr conditionals =>
            match facts !! JSONRule_Derivation jrule with
            | None => inl ("Unknown fact name " +:+ JSONRule_Derivation jrule
                             +:+ " in rule " +:+ showJSONRule jrule)
            | Some derivation =>
                buildRules facts knownRules rest
                  (rules ++ [mkRule (JSONRule_Name jrule) conditionals derivation])
            end
        end
  end.

(** [func _fromJSONEngine(jsonEngine *JSONInterpreter)], returning the
    interpreter or an error. *)
Definition _fromJSONEngine (jsonEngine : JSONInterpreter) : error + Interpreter :=
  match registerFacts (JSON_Facts jsonEngine) 0 ∅ with
  | inl err => inl err
  | inr facts =>
      match buildRules facts ∅ (JSON_Rules jsonEngine) [] with
      | inl err => inl err
      | inr rules => inr (mkInterpreter facts rules)
      end
  end.

End Interpreter.

(** ** The second copy, [Engine]

    [Engine] repeats the code above with three differences: [forward]
    declares [usedRules] inside the loop; the inner condition of
    [_isDerivable] makes the recursive call before the membership test;
    and [_convertNames] prints the whole name slice in its message. *)

Module Engine.

(** The [for { ... }] loop of [forward]: [resultFacts] and [usedRules]
    are both created anew at the top of every round. *)
Fixpoint forward (fuel : nat) (e : Interpreter)
    (trueFacts : list FactPtr) (query : FactPtr) : option (bool * list Rule) :=
  match fuel with
  | O => None
  | S fuel' =>
      let '(resultFacts, usedRules) := scanRules (Rules e) trueFacts [] [] in
      let trueFacts' := appendAll trueFacts resultFacts in
      if Nat.eqb (length resultFacts) 0
      then Some (in_ trueFacts' query, usedRules)
      else forward fuel' e trueFacts' query
  end.

(** [func (e *Engine) _isDerivable(...) bool]; the inner condition is
    [e._isDerivable(trueFacts, conditional, usedRules) && in(trueFacts, conditional)]. *)
Fixpoint _isDerivable (fuel : nat) (e : Interpreter)
    (trueFacts : list FactPtr) (fact : FactPtr) (usedRules : list Rule)
    : option Call :=
  match fuel with
  | O => None
  | S fuel' =>
      if in_ trueFacts fact then Some (mkCall true trueFacts usedRules)
      else
        tryRules
          (fun conditional =>
             match _isDerivable fuel' e trueFacts conditional usedRules with
             | None => None
             | Some call => Some (returned call && in_ trueFacts conditional)
             end)
          (Rules e) trueFacts fact usedRules
  end.

Definition backward (fuel : nat) (e : Interpreter)
    (trueFacts : list FactPtr) (query : FactPtr) : option (bool * list Rule) :=
  let usedRules := [] in
  match _isDerivable fuel e trueFacts query usedRules with
  | None => None
  | Some call => Some (returned call, usedRules)
  end.

(** The message for an unregistered true-fact name formats
    [trueFactNames], the whole slice. *)
Definition _convertNames (e : Interpreter) (trueFactNames : list string)
    (queryName : string) : error + (list FactPtr * FactPtr) :=
  match convertLoop (Facts e) (fun _ => showNames trueFactNames) trueFactNames [] with
  | inl err => inl err
  | inr trueFacts =>
      match Facts e !! queryName with
      | None => inl ("Unknown fact: " +:+ queryName)
      | Some queryFact => inr (trueFacts, queryFact)
      end
  end.

Definition Forward (fuel : nat) (e : Interpreter)
    (trueFactNames : list string) (queryName : string) : option Answer :=
  match _convertNames e trueFactNames queryName with
  | inl err => Some (false, [], Some err)
  | inr (trueFacts, queryFact) =>
      match forward fuel e trueFacts queryFact with
      | None => None
      | Some (isDerived, usedRules) => Some (isDerived, map Name usedRules, None)
      end
  end.

(** [func (e *Engine) Backward(...) (bool, []*Rule, error)]: this copy
    returns the rules, not their names. *)
Definition Backward (fuel : nat) (e : Interpreter)
    (trueFactNames : list string) (queryName : string)
    : option (bool * list Rule * option error) :=
  match _convertNames e trueFactNames queryName with
  | inl err => Some (false, [], Some err)
  | inr (trueFacts, queryFact) =>
      match backward fuel e trueFacts queryFact with
      | None => None
      | Some (isDerived, usedRules) => Some (isDerived, usedRules, None)
      end
  end.

End Engine.

(** ** The knowledge bases of the examples *)

(** Facts f1, f2, f3; rule R1: [f1, f2] -> f3. *)
Definition json_basic : JSONInterpreter :=
  mkJSONInterpreter
    [mkFact "f1" "first"; mkFact "f2" "second"; mkFact "f3" "third"]
    [mkJSONRule "R1" ["f1"; "f2"] "f3"].

(** Facts a, b, c; rules R1: [a] -> b and R2: [b] -> c. *)
Definition json_chained : JSONInterpreter :=
  mkJSONInterpreter
    [mkFact "a" ""; mkFact "b" ""; mkFact "c" ""]
    [mkJSONRule "R1" ["a"] "b"; mkJSONRule "R2" ["b"] "c"].

Definition kb_basic : Interpreter :=
  mkInterpreter (<["f1" := 0]> (<["f2" := 1]> (<["f3" := 2]> ∅)))
    [mkRule "R1" [0; 1] 2].

Definition kb_chained : Interpreter :=
  mkInterpreter (<["a" := 0]> (<["b" := 1]> (<["c" := 2]> ∅)))
    [mkRule "R1" [0] 1; mkRule "R2" [1] 2].

(** Facts a, b, c, d; R1: [a] -> b, R2: [a] -> b, R3: [b, c] -> d. *)
Definition json_twice : JSONInterpreter :=
  mkJSONInterpreter
    [mkFact "a" ""; mkFact "b" ""; mkFact "c" ""; mkFact "d" ""]
    [mkJSONRule "R1" ["a"] "b"; mkJSONRule "R2" ["a"] "b";
     mkJSONRule "R3" ["b"; "c"] "d"].

Definition kb_twice : Interpreter :=
  mkInterpreter (<["a" := 0]> (<["b" := 1]> (<["c" := 2]> (<["d" := 3]> ∅))))
    [mkRule "R1" [0] 1; mkRule "R2" [0] 1; mkRule "R3" [1; 2] 3].

(** One fact a and a rule without antecedents, R1: [] -> a. *)
Definition json_unconditional : JSONInterpreter :=
  mkJSONInterpreter [mkFact "a" ""] [mkJSONRule "R1" [] "a"].

Definition kb_unconditional : Interpreter :=
  mkInterpreter (<["a" := 0]> ∅) [mkRule "R1" [] 0].

(** Facts a, b; R1: [b] -> a and R2: [a] -> b depend on each other. *)
Definition json_cycle : JSONInterpreter :=
  mkJSONInterpreter [mkFact "a" ""; mkFact "b" ""]
    [mkJSONRule "R1" ["b"] "a"; mkJSONRule "R2" ["a"] "b"].

Definition kb_cycle : Interpreter :=
  mkInterpreter (<["a" := 0]> (<["b" := 1]> ∅))
    [mkRule "R1" [1] 0; mkRule "R2" [0] 1].

(** ** Notions used to state the properties *)

(** The rules that pass the test of the round on [trueFacts], in
    declaration order. *)
Definition fired (rules : list Rule) (trueFacts : list FactPtr) : list Rule :=
  List.filter (fun rule => fires rule trueFacts) rules.

(** How many entries of [universe] are not yet in the working set. *)
Definition missing (universe trueFacts : list FactPtr) : nat :=
  length (List.filter (fun fact => negb (in_ trueFacts fact)) universe).

(** A rule settles the goal [fact] on [trueFacts]: its consequent is the
    goal and each of its antecedents is in [trueFacts]. *)
Definition settles (trueFacts : list FactPtr) (fact : FactPtr) (rule : Rule) : bool :=
  Nat.eqb (Derivation rule) fact && forallb (in_ trueFacts) (Conditionals rule).

(** The first of [names] that the fact map does not hold, if any. *)
Definition unknown (facts : gmap string FactPtr) (name : string) : bool :=
  bool_decide (facts !! name = None).

Definition firstUnknown (facts : gmap string FactPtr) (names : list string)
    : option string :=
  List.find (unknown facts) names.

(** Referential integrity of one rule. *)
Definition rule_registered (facts : gmap string FactPtr) (rule : Rule) : Prop :=
  (∃ name, facts !! name = Some (Derivation rule))
  ∧ ∀ c, c ∈ Conditionals rule → ∃ name, facts !! name = Some c.

(** The registered facts, one entry per name. *)
Definition registered (e : Interpreter) : list FactPtr :=
  (map_to_list (Facts e)).*2.

(** Derivability, as the specification understands it.  The facts
    derivable from a set of given facts are the given ones and the
    consequent of every rule whose antecedents are all derivable. *)
Inductive Derivable (rules : list Rule) (given : list FactPtr) : FactPtr → Prop :=
  | Derivable_given (fact : FactPtr) :
      fact ∈ given → Derivable rules given fact
  | Derivable_rule (rule : Rule) :
      rule ∈ rules →
      (∀ c, c ∈ Conditionals rule → Derivable rules given c) →
      Derivable rules given (Derivation rule).

(** An answer that carries an error. *)
Definition raises (answer : option Answer) : Prop :=
  ∃ isDerived trail err, answer = Some (isDerived, trail, Some err).

(** ** The loaders on a decoded description

    [json.Unmarshal] turns a JSON [null] in the list of facts or of
    rules into a nil pointer.  The loaders read [fact.Name] and
    [jrule.Name] without a check, which on a nil entry is a run-time
    panic.  In a decoded description an entry is [None] when it is
    nil. *)

(** The result of running code that may panic. *)
Inductive Outcome (A : Type) : Type :=
  | Returns (a : A)
  | Panics.
Arguments Returns {A} a.
Arguments Panics {A}.

Record DecodedJSON := mkDecodedJSON {
  Decoded_Facts : list (option Fact);
  Decoded_Rules : list (option JSONRule)
}.

(** A description without nil entries, as a decoded description. *)
Definition decoded (jsonEngine : JSONInterpreter) : DecodedJSON :=
  mkDecodedJSON (Some <$> JSON_Facts jsonEngine) (Some <$> JSON_Rules jsonEngine).

Module DecodedInterpreter.

(** The loop over [jsonEngine.Facts]; [fact.Name] is read first. *)
Fixpoint registerFacts (facts : list (option Fact)) (ptr : FactPtr)
    (known : gmap string FactPtr) : Outcome (error + gmap string FactPtr) :=
  match facts with
  | [] => Returns (inr known)
  | None :: _ => Panics
  | Some fact :: rest =>
      match known !! Fact_Name fact with
      | Some _ => Returns (inl ("Doubled fact: " +:+ showFact fact))
      | None => registerFacts rest (S ptr) (<[Fact_Name fact := ptr]> known)
      end
  end.

(** The loop over [jsonEngine.Rules]; [jrule.Name] is read first. *)
Fixpoint buildRules (facts : gmap string FactPtr) (knownRules : gset string)
    (jrules : list (option JSONRule)) (rules : list Rule)
    : Outcome (error + list Rule) :=
  match jrules with
  | [] => Returns (inr rules)
  | None :: _ => Panics
  | Some jrule :: rest =>
      if bool_decide (JSONRule_Name jrule ∈ knownRules)
      then Returns (inl ("Doubled rule: " +:+ showJSONRule jrule))
      else
        match Interpreter.resolveConditionals facts jrule
                (JSONRule_Conditionals jrule) [] with
        | inl err => Returns (inl err)
        | inr conditionals =>
            match facts !! JSONRule_Derivation jrule with
            | None => Returns (inl ("Unknown fact name " +:+ JSONRule_Derivation jrule
                                     +:+ " in rule " +:+ showJSONRule jrule))
            | Some derivation =>
                buildRules facts knownRules rest
                  (rules ++ [mkRule (JSONRule_Name jrule) conditionals derivation])
            end
        end
  end.

(** [func _fromJSONEngine(jsonEngine *JSONInterpreter)] on a decoded
    description. *)
Definition _fromJSONEngine (jsonEngine : DecodedJSON)
    : Outcome (error + Interpreter) :=
  match registerFacts (Decoded_Facts jsonEngine) 0 ∅ with
  | Panics => Panics
  | Returns (inl err) => Returns (inl err)
  | Returns (inr facts) =>
      match buildRules facts ∅ (Decoded_Rules jsonEngine) [] with
      | Panics => Panics
      | Returns (inl err) => Returns (inl err)
      | Returns (inr rules) => Returns (inr (mkInterpreter facts rules))
      end
  end.

End DecodedInterpreter.

(** The loader of [Engine]: [engine := new(Engine)] leaves
    [engine.Facts] a nil map, and this copy of the loader never makes
    one.  Reading a nil map finds nothing; assigning to one is a
    run-time panic. *)
Module DecodedEngine.

(** A variable of type [map[string]*Fact]: [None] is the nil map. *)
Definition GoMap : Type := option (gmap string FactPtr).

(** [m[k]] read with the comma-ok form. *)
Definition index (m : GoMap) (k : string) : option FactPtr :=
  match m with
  | None => None
  | Some entries => entries !! k
  end.

(** [m[k] = v] *)
Definition assign (m : GoMap) (k : string) (v : FactPtr) : Outcome GoMap :=
  match m with
  | None => Panics
  | Some entries => Returns (Some (<[k := v]> entries))
  end.

(** What the rule loop reads: a nil map reads like an empty one. *)
Definition entries (m : GoMap) : gmap string FactPtr :=
  match m with
  | None => ∅
  | Some entries => entries
  end.

(** The loop over [jsonEngine.Facts], which ends in
    [engine.Facts[fact.Name] = fact]. *)
Fixpoint registerFacts (facts : list (option Fact)) (ptr : FactPtr) (known : GoMap)
    : Outcome (error + GoMap) :=
  match facts with
  | [] => Returns (inr known)
  | None :: _ => Panics
  | Some fact :: rest =>
      match index known (Fact_Name fact) with
      | Some _ => Returns (inl ("Doubled fact: " +:+ showFact fact))
      | None =>
          match assign known (Fact_Name fact) ptr with
          | Panics => Panics
          | Returns known' => registerFacts rest (S ptr) known'
          end
      end
  end.

(** [func _fromJSONEngine(jsonEngine *JSONEngine)] of [Engine]; its
    rule loop is the one of the reference loader. *)
Definition _fromJSONEngine (jsonEngine : DecodedJSON)
    : Outcome (error + Interpreter) :=
  match registerFacts (Decoded_Facts jsonEngine) 0 None with
  | Panics => Panics
  | Returns (inl err) => Returns (inl err)
  | Returns (inr facts) =>
      match DecodedInterpreter.buildRules (entries facts) ∅
              (Decoded_Rules jsonEngine) [] with
      | Panics => Panics
      | Returns (inl err) => Returns (inl err)
      | Returns (inr rules) => Returns (inr (mkInterpreter (entries facts) rules))
      end
  end.

End DecodedEngine.

(** ** Counting rounds and collecting what they fire *)

(** The loop of [forward] with a counter of the rounds that produced
    new facts; the round that produces none ends the loop and is not
    counted. *)
Fixpoint firingRounds (fuel : nat) (e : Interpreter) (trueFacts : list FactPtr)
    : option nat :=
  match fuel with
  | O => None
  | S fuel' =>
      let '(resultFacts, _) := scanRules (Rules e) trueFacts [] [] in
      if Nat.eqb (length resultFacts) 0 then Some 0
      else option_map S (firingRounds fuel' e (appendAll trueFacts resultFacts))
  end.

(** Saturation: round after round, the consequents of the rules that
    fire are added to the working set, until a round fires nothing.
    The result is the saturated working set and the rules fired in all
    the rounds, in firing order. *)
Fixpoint saturation (fuel : nat) (rules : list Rule) (trueFacts : list FactPtr)
    : option (list FactPtr * list Rule) :=
  match fuel with
  | O => None
  | S fuel' =>
      match List.filter (fun rule => fires rule trueFacts) rules with
      | [] => Some (trueFacts, [])
      | first :: others =>
          match saturation fuel' rules
                  (trueFacts ++ map Derivation (first :: others)) with
          | Some (final, later) => Some (final, (first :: others) ++ later)
          | None => None
          end
      end
  end.

(** ** The command line: the flag value [trueFacts] *)

Module Cmd.

(** [strings.Split(value, ",")]: the pieces between the commas, one
    more than there are commas. *)
Fixpoint Split (value : string) : list string :=
  match value with
  | EmptyString => [""]
  | String c rest =>
      if Ascii.eqb c ","%char then "" :: Split rest
      else match Split rest with
           | piece :: pieces => String c piece :: pieces
           | [] => [String c ""]
           end
  end.

(** [for _, trFact := range *trFacts { strBuilder.WriteString(trFact) }] *)
Fixpoint writeAll (strBuilder : string) (trFacts : list string) : string :=
  match trFacts with
  | [] => strBuilder
  | trFact :: rest => writeAll (strBuilder +:+ trFact) rest
  end.

(** [func (trFacts *trueFacts) String() string] *)
Definition trueFacts_String (trFacts : list string) : string :=
  writeAll "" trFacts.

(** The loop of [Set] over [strings.Split(value, ",")], which appends
    each piece to the flag value. *)
Fixpoint appendFacts (trFacts pieces : list string) : list string :=
  match pieces with
  | [] => trFacts
  | fact :: rest => appendFacts (trFacts ++ [fact]) rest
  end.

(** [func (trFacts *trueFacts) Set(value string) error]: the new
    contents of [*trFacts] and the error. *)
Definition trueFacts_Set (trFacts : list string) (value : string)
    : list string * option error :=
  if Nat.ltb 0 (length trFacts)
  then (trFacts, Some "true facts flag already have been set")
  else (appendFacts trFacts (Split value), None).

End Cmd.

(** ** Further notions used to state the properties *)

(** How often [fact] stands in [facts]. *)
Definition occurrences (fact : FactPtr) (facts : list FactPtr) : nat :=
  length (List.filter (Nat.eqb fact) facts).

(** The pieces joined by commas. *)
Fixpoint joinComma (pieces : list string) : string :=
  match pieces with
  | [] => ""
  | [piece] => piece
  | piece :: rest => piece +:+ "," +:+ joinComma rest
  end.

(** [value] without its commas. *)
Fixpoint dropCommas (value : string) : string :=
  match value with
  | EmptyString => ""
  | String c rest =>
      if Ascii.eqb c ","%char then dropCommas rest else String c (dropCommas rest)
  end.

(** Whether a comma stands in [value]. *)
Fixpoint hasComma (value : string) : bool :=
  match value with
  | EmptyString => false
  | String c rest => Ascii.eqb c ","%char || hasComma rest
  end.

(** A description entry that the rule loop of the loader accepts: all
    the names it mentions are among [names]. *)
Definition resolvable (names : list string) (jrule : JSONRule) : Prop :=
  (∀ c, c ∈ JSONRule_Conditionals jrule → c ∈ names)
  ∧ JSONRule_Derivation jrule ∈ names.

(** A loaded rule is the description entry with its names resolved. *)
Definition translates (facts : gmap string FactPtr) (jrule : JSONRule)
    (rule : Rule) : Prop :=
  Name rule = JSONRule_Name jrule
  ∧ Forall2 (fun name ptr => facts !! name = Some ptr)
      (JSONRule_Conditionals jrule) (Conditionals rule)
  ∧ facts !! JSONRule_Derivation jrule = Some (Derivation rule).

(** * Properties *)

(** ** Membership and the loops of one forward round *)

Lemma in__elem_of (facts : list FactPtr) (fact : FactPtr) :
  in_ facts fact = true ↔ fact ∈ facts.
Proof.
  induction facts as [|f rest IH]; simpl.
  - rewrite elem_of_nil. split; [discriminate | tauto].
  - rewrite elem_of_cons. destruct (Nat.eqb_spec f fact) as [->|Hne].
    + tauto.
    + rewrite IH. split; [tauto | intros [Heq|Hin]; [congruence | exact Hin]].
Qed.

Lemma in__false (facts : list FactPtr) (fact : FactPtr) :
  in_ facts fact = false ↔ fact ∉ facts.
Proof.
  rewrite <- in__elem_of. destruct (in_ facts fact); split; congruence.
Qed.

Lemma in__app (l1 l2 : list FactPtr) (fact : FactPtr) :
  in_ (l1 ++ l2) fact = in_ l1 fact || in_ l2 fact.
Proof.
  induction l1 as [|f rest IH]; simpl; [reflexivity|].
  destruct (Nat.eqb f fact); [reflexivity | exact IH].
Qed.

Lemma appendAll_app (trueFacts resultFacts : list FactPtr) :
  appendAll trueFacts resultFacts = trueFacts ++ resultFacts.
Proof.
  revert trueFacts. induction resultFacts as [|r rest IH]; intros trueFacts; simpl.
  - symmetry. apply app_nil_r.
  - rewrite IH, <- app_assoc. reflexivity.
Qed.

(** The flag [derived] survives the scan exactly when the consequent
    of the rule is not among the true facts. *)
Lemma scanTrueFacts_derived (rule : Rule) (trueFacts : list FactPtr)
    (matches : nat) (derived : bool) :
  snd (scanTrueFacts rule trueFacts matches derived)
  = derived && negb (in_ trueFacts (Derivation rule)).
Proof.
  revert matches derived.
  induction trueFacts as [|t rest IH]; intros matches derived; simpl.
  - symmetry. apply andb_true_r.
  - rewrite (Nat.eqb_sym t (Derivation rule)).
    destruct (Nat.eqb (Derivation rule) t); rewrite IH; simpl.
    + symmetry. apply andb_false_r.
    + reflexivity.
Qed.

Lemma fires_not_derived (rule : Rule) (trueFacts : list FactPtr) :
  fires rule trueFacts = true → in_ trueFacts (Derivation rule) = false.
Proof.
  unfold fires. intros H.
  pose proof (scanTrueFacts_derived rule trueFacts 0 true) as Hd.
  destruct (scanTrueFacts rule trueFacts 0 true) as [matches derived].
  simpl in Hd. subst derived.
  apply andb_true_iff in H as [H _].
  destruct (in_ trueFacts (Derivation rule)); [discriminate | reflexivity].
Qed.

Lemma scanRules_fired (rules : list Rule) (trueFacts resultFacts : list FactPtr)
    (usedRules : list Rule) :
  scanRules rules trueFacts resultFacts usedRules
  = (resultFacts ++ map Derivation (fired rules trueFacts),
     usedRules ++ fired rules trueFacts).
Proof.
  revert resultFacts usedRules.
  induction rules as [|rule rest IH]; intros resultFacts usedRules; simpl.
  - rewrite !app_nil_r. reflexivity.
  - unfold fired in *. simpl. destruct (fires rule trueFacts); simpl.
    + rewrite IH, <- !app_assoc. reflexivity.
    + apply IH.
Qed.

Lemma fired_fires (rules : list Rule) (trueFacts : list FactPtr) (rule : Rule) :
  rule ∈ fired rules trueFacts ↔ rule ∈ rules ∧ fires rule trueFacts = true.
Proof.
  unfold fired. rewrite !list_elem_of_In. apply filter_In.
Qed.

(** One round of the reference [forward]: a round that fires nothing
    returns; any other round appends the consequents and the rules and
    goes on. *)
Lemma forward_loop_round (fuel : nat) (e : Interpreter)
    (trueFacts : list FactPtr) (query : FactPtr) (usedRules : list Rule) :
  Interpreter.forward_loop (S fuel) e trueFacts query usedRules
  = match fired (Rules e) trueFacts with
    | [] => Some (in_ trueFacts query, usedRules)
    | _ :: _ =>
        Interpreter.forward_loop fuel e
          (trueFacts ++ map Derivation (fired (Rules e) trueFacts)) query
          (usedRules ++ fired (Rules e) trueFacts)
    end.
Proof.
  simpl. rewrite scanRules_fired, appendAll_app. simpl.
  destruct (fired (Rules e) trueFacts) as [|r rs]; simpl.
  - rewrite !app_nil_r. reflexivity.
  - reflexivity.
Qed.

(** The same for [Engine], whose trail restarts in every round. *)
Lemma Engine_forward_round (fuel : nat) (e : Interpreter)
    (trueFacts : list FactPtr) (query : FactPtr) :
  Engine.forward (S fuel) e trueFacts query
  = match fired (Rules e) trueFacts with
    | [] => Some (in_ trueFacts query, [])
    | _ :: _ =>
        Engine.forward fuel e
          (trueFacts ++ map Derivation (fired (Rules e) trueFacts)) query
    end.
Proof.
  simpl. rewrite scanRules_fired, appendAll_app. simpl.
  destruct (fired (Rules e) trueFacts) as [|r rs]; simpl.
  - rewrite !app_nil_r. reflexivity.
  - reflexivity.
Qed.

(** ** Termination of the saturation loop *)

Lemma missing_le (universe trueFacts : list FactPtr) :
  missing universe trueFacts ≤ length universe.
Proof. apply List.filter_length_le. Qed.

Lemma missing_mono (universe trueFacts trueFacts' : list FactPtr) :
  (∀ fact, in_ trueFacts fact = true → in_ trueFacts' fact = true) →
  missing universe trueFacts' ≤ missing universe trueFacts.
Proof.
  intros Hsub. unfold missing.
  induction universe as [|u rest IH]; simpl; [lia|].
  destruct (in_ trueFacts u) eqn:Hu.
  - rewrite (Hsub u Hu). simpl. exact IH.
  - destruct (in_ trueFacts' u); simpl; lia.
Qed.

Lemma missing_decreases (universe trueFacts trueFacts' : list FactPtr)
    (fact : FactPtr) :
  fact ∈ universe →
  in_ trueFacts fact = false →
  in_ trueFacts' fact = true →
  (∀ x, in_ trueFacts x = true → in_ trueFacts' x = true) →
  missing universe trueFacts' < missing universe trueFacts.
Proof.
  intros Hin Hold Hnew Hsub.
  induction universe as [|u rest IH]; [by apply elem_of_nil in Hin|].
  apply elem_of_cons in Hin as [<-|Hin].
  - pose proof (missing_mono rest trueFacts trueFacts' Hsub) as Hle.
    unfold missing in *. simpl. rewrite Hold, Hnew. simpl. lia.
  - specialize (IH Hin). unfold missing in *. simpl.
    destruct (in_ trueFacts u) eqn:Hu.
    + rewrite (Hsub u Hu). simpl. exact IH.
    + destruct (in_ trueFacts' u); simpl; lia.
Qed.

(** A round that fires a rule brings a consequent into the working set
    that was not there. *)
Lemma round_progress (universe : list FactPtr) (rules : list Rule)
    (trueFacts : list FactPtr) (rule : Rule) (others : list Rule) :
  (∀ r, r ∈ rules → Derivation r ∈ universe) →
  fired rules trueFacts = rule :: others →
  missing universe (trueFacts ++ map Derivation (fired rules trueFacts))
  < missing universe trueFacts.
Proof.
  intros Hwf Hfired.
  assert (Hr : rule ∈ fired rules trueFacts) by (rewrite Hfired; left).
  apply fired_fires in Hr as [Hr Hfires].
  apply (missing_decreases _ _ _ (Derivation rule)).
  - apply Hwf, Hr.
  - apply fires_not_derived, Hfires.
  - rewrite in__app, Hfired. simpl. rewrite Nat.eqb_refl. apply orb_true_r.
  - intros x Hx. rewrite in__app, Hx. reflexivity.
Qed.

(** With more rounds allowed than there are entries still missing, the
    loop returns. *)
Lemma forward_loop_returns (universe : list FactPtr) (e : Interpreter)
    (query : FactPtr) :
  (∀ r, r ∈ Rules e → Derivation r ∈ universe) →
  ∀ (fuel : nat) (trueFacts : list FactPtr) (usedRules : list Rule),
    missing universe trueFacts < fuel →
    is_Some (Interpreter.forward_loop fuel e trueFacts query usedRules).
Proof.
  intros Hwf fuel.
  induction fuel as [|fuel IH]; intros trueFacts usedRules Hlt; [lia|].
  rewrite forward_loop_round.
  destruct (fired (Rules e) trueFacts) as [|rule others] eqn:Hfired.
  - eexists. reflexivity.
  - rewrite <- Hfired. apply IH.
    pose proof (round_progress universe _ _ _ _ Hwf Hfired). lia.
Qed.

(** The loop always returns: the consequents of the rules themselves
    bound the number of rounds that can add something. *)
Lemma forward_loop_total (e : Interpreter) (trueFacts : list FactPtr)
    (query : FactPtr) (usedRules : list Rule) (fuel : nat) :
  length (Rules e) < fuel →
  is_Some (Interpreter.forward_loop fuel e trueFacts query usedRules).
Proof.
  intros Hlt.
  apply (forward_loop_returns (map Derivation (Rules e))).
  - intros r Hr. apply list_elem_of_fmap_2, Hr.
  - pose proof (missing_le (map Derivation (Rules e)) trueFacts) as Hle.
    rewrite length_map in Hle. lia.
Qed.

(** More fuel does not change a result. *)
Lemma forward_loop_fuel_mono (e : Interpreter) (query : FactPtr)
    (fuel extra : nat) (trueFacts : list FactPtr) (usedRules : list Rule)
    (result : bool * list Rule) :
  Interpreter.forward_loop fuel e trueFacts query usedRules = Some result →
  Interpreter.forward_loop (fuel + extra) e trueFacts query usedRules = Some result.
Proof.
  revert trueFacts usedRules.
  induction fuel as [|fuel IH]; intros trueFacts usedRules; [discriminate|].
  replace (S fuel + extra) with (S (fuel + extra)) by lia.
  rewrite !forward_loop_round.
  destruct (fired (Rules e) trueFacts); [tauto | apply IH].
Qed.

(** A query that is in the working set stays there: the verdict is [true]. *)
Lemma forward_loop_verdict (e : Interpreter) (query : FactPtr) (fuel : nat)
    (trueFacts : list FactPtr) (usedRules : list Rule)
    (isDerived : bool) (trail : list Rule) :
  in_ trueFacts query = true →
  Interpreter.forward_loop fuel e trueFacts query usedRules = Some (isDerived, trail) →
  isDerived = true.
Proof.
  revert trueFacts usedRules.
  induction fuel as [|fuel IH]; intros trueFacts usedRules Hin; [discriminate|].
  rewrite forward_loop_round.
  destruct (fired (Rules e) trueFacts) as [|rule others].
  - intros [= <- _]. exact Hin.
  - apply IH. rewrite in__app, Hin. reflexivity.
Qed.

(** The trail only grows, and the rules of the first round come first. *)
Lemma forward_loop_trail (e : Interpreter) (query : FactPtr) (fuel : nat)
    (trueFacts : list FactPtr) (usedRules : list Rule)
    (isDerived : bool) (trail : list Rule) :
  Interpreter.forward_loop fuel e trueFacts query usedRules = Some (isDerived, trail) →
  ∃ later, trail = usedRules ++ fired (Rules e) trueFacts ++ later.
Proof.
  revert trueFacts usedRules.
  induction fuel as [|fuel IH]; intros trueFacts usedRules; [discriminate|].
  rewrite forward_loop_round.
  destruct (fired (Rules e) trueFacts) as [|rule others] eqn:Hfired.
  - intros [= _ <-]. exists []. rewrite !app_nil_r. reflexivity.
  - intros H. apply IH in H as [later ->].
    eexists. rewrite <- !app_assoc. reflexivity.
Qed.

(** [Engine] returns the trail of its last round, which fired nothing. *)
Lemma Engine_forward_trail_empty (e : Interpreter) (query : FactPtr)
    (fuel : nat) (trueFacts : list FactPtr) (isDerived : bool)
    (trail : list Rule) :
  Engine.forward fuel e trueFacts query = Some (isDerived, trail) → trail = [].
Proof.
  revert trueFacts.
  induction fuel as [|fuel IH]; intros trueFacts; [discriminate|].
  rewrite Engine_forward_round.
  destruct (fired (Rules e) trueFacts) as [|rule others].
  - intros [= _ <-]. reflexivity.
  - apply IH.
Qed.

(** ** The test of a round on a duplicate-free working set *)

Lemma countMatches_filter (conditionals : list FactPtr) (trFact : FactPtr)
    (matches : nat) :
  countMatches conditionals trFact matches
  = matches + length (List.filter (fun c => Nat.eqb c trFact) conditionals).
Proof.
  revert matches.
  induction conditionals as [|c rest IH]; intros matches; simpl; [lia|].
  rewrite IH. destruct (Nat.eqb c trFact); simpl; lia.
Qed.

Lemma filter_in_cons (conditionals rest : list FactPtr) (trFact : FactPtr) :
  trFact ∉ rest →
  length (List.filter (in_ (trFact :: rest)) conditionals)
  = length (List.filter (fun c => Nat.eqb c trFact) conditionals)
    + length (List.filter (in_ rest) conditionals).
Proof.
  intros Hfresh.
  induction conditionals as [|c cs IH]; simpl; [reflexivity|].
  rewrite (Nat.eqb_sym trFact c).
  destruct (Nat.eqb_spec c trFact) as [->|Hne]; simpl.
  - apply in__false in Hfresh. rewrite Hfresh. simpl in IH. lia.
  - destruct (in_ rest c); simpl; simpl in IH; lia.
Qed.

Lemma length_filter_all {A : Type} (f : A → bool) (l : list A) :
  length (List.filter f l) = length l ↔ forallb f l = true.
Proof.
  induction l as [|a l IH]; simpl; [tauto|].
  destruct (f a); simpl.
  - rewrite <- IH. split; lia.
  - pose proof (List.filter_length_le f l). split; [lia | discriminate].
Qed.

Lemma scanTrueFacts_matches (rule : Rule) (trueFacts : list FactPtr)
    (matches : nat) (derived : bool) :
  NoDup trueFacts →
  in_ trueFacts (Derivation rule) = false →
  fst (scanTrueFacts rule trueFacts matches derived)
  = matches + length (List.filter (in_ trueFacts) (Conditionals rule)).
Proof.
  intros Hnodup. revert matches derived.
  induction Hnodup as [|t rest Hfresh Hnodup IH]; intros matches derived Hout.
  - assert (Hnone : List.filter (in_ []) (Conditionals rule) = []).
    { induction (Conditionals rule) as [|c cs IHc]; simpl; auto. }
    rewrite Hnone. simpl. lia.
  - simpl. simpl in Hout. rewrite (Nat.eqb_sym (Derivation rule) t).
    destruct (Nat.eqb t (Derivation rule)) eqn:Heq; [discriminate|].
    rewrite IH by exact Hout.
    rewrite countMatches_filter.
    pose proof (filter_in_cons (Conditionals rule) rest t Hfresh) as Hsplit.
    simpl in Hsplit. lia.
Qed.

(** On a working set without duplicates the test is the set-theoretic
    one: the consequent is absent and every antecedent is present. *)
Lemma fires_set_semantics (rule : Rule) (trueFacts : list FactPtr) :
  NoDup trueFacts →
  fires rule trueFacts
  = negb (in_ trueFacts (Derivation rule))
    && forallb (in_ trueFacts) (Conditionals rule).
Proof.
  intros Hnodup. unfold fires.
  pose proof (scanTrueFacts_derived rule trueFacts 0 true) as Hd.
  pose proof (scanTrueFacts_matches rule trueFacts 0 true Hnodup) as Hm.
  destruct (scanTrueFacts rule trueFacts 0 true) as [matches derived].
  simpl in Hd, Hm. subst derived.
  destruct (in_ trueFacts (Derivation rule)); simpl; [reflexivity|].
  rewrite Hm by reflexivity. simpl.
  destruct (forallb (in_ trueFacts) (Conditionals rule)) eqn:Hall.
  - apply Nat.eqb_eq, length_filter_all, Hall.
  - apply Nat.eqb_neq. intros Heq.
    apply length_filter_all in Heq. congruence.
Qed.

(** ** The loops of backward chaining *)

Lemma countDerivable_filter (check : FactPtr → option bool) (f : FactPtr → bool)
    (conditionals : list FactPtr) (derivableCount : nat) :
  (∀ c, check c = Some (f c)) →
  countDerivable check conditionals derivableCount
  = Some (derivableCount + length (List.filter f conditionals)).
Proof.
  intros Hcheck. revert derivableCount.
  induction conditionals as [|c rest IH]; intros derivableCount; simpl.
  - f_equal. lia.
  - rewrite Hcheck. destruct (f c); rewrite IH; simpl; f_equal; lia.
Qed.

Lemma tryRules_find (check : FactPtr → option bool) (rules : list Rule)
    (trueFacts : list FactPtr) (fact : FactPtr) (usedRules : list Rule) :
  (∀ c, check c = Some (in_ trueFacts c)) →
  tryRules check rules trueFacts fact usedRules
  = Some match List.find (settles trueFacts fact) rules with
         | Some rule => mkCall true (trueFacts ++ [Derivation rule]) (usedRules ++ [rule])
         | None => mkCall false trueFacts usedRules
         end.
Proof.
  intros Hcheck.
  induction rules as [|rule rest IH]; simpl; [reflexivity|].
  unfold settles at 1.
  destruct (Nat.eqb (Derivation rule) fact); simpl; [|exact IH].
  rewrite (countDerivable_filter check (in_ trueFacts)) by exact Hcheck. simpl.
  destruct (forallb (in_ trueFacts) (Conditionals rule)) eqn:Hall.
  - apply length_filter_all in Hall. rewrite Hall, Nat.eqb_refl. reflexivity.
  - destruct (Nat.eqb_spec (length (List.filter (in_ trueFacts) (Conditionals rule)))
                (length (Conditionals rule))) as [Heq|_]; [|exact IH].
    apply length_filter_all in Heq. congruence.
Qed.

Lemma find_settles (rules : list Rule) (trueFacts : list FactPtr) (fact : FactPtr) :
  is_Some (List.find (settles trueFacts fact) rules)
  ↔ ∃ rule, rule ∈ rules ∧ Derivation rule = fact
            ∧ ∀ c, c ∈ Conditionals rule → c ∈ trueFacts.
Proof.
  assert (Hsettles : ∀ rule, settles trueFacts fact rule = true
            ↔ Derivation rule = fact ∧ ∀ c, c ∈ Conditionals rule → c ∈ trueFacts).
  { intros rule. unfold settles.
    rewrite andb_true_iff, Nat.eqb_eq, forallb_forall.
    split; intros [Hd Hc]; (split; [exact Hd|]); intros c Hin.
    - apply in__elem_of, Hc, list_elem_of_In, Hin.
    - apply in__elem_of, Hc, list_elem_of_In, Hin. }
  split.
  - intros [rule Hfind]. apply find_some in Hfind as [Hin Hs].
    exists rule. apply Hsettles in Hs. apply list_elem_of_In in Hin. tauto.
  - intros (rule & Hin & Hs).
    destruct (List.find (settles trueFacts fact) rules) as [r|] eqn:Hfind; [by eexists|].
    apply list_elem_of_In in Hin.
    pose proof (find_none _ _ Hfind rule Hin) as Hno.
    apply Hsettles in Hs. congruence.
Qed.

Lemma Interpreter_isDerivable_S (fuel : nat) (e : Interpreter)
    (trueFacts : list FactPtr) (fact : FactPtr) (usedRules : list Rule) :
  Interpreter._isDerivable (S fuel) e trueFacts fact usedRules
  = if in_ trueFacts fact then Some (mkCall true trueFacts usedRules)
    else tryRules
           (fun conditional =>
              if in_ trueFacts conditional
              then option_map returned
                     (Interpreter._isDerivable fuel e trueFacts conditional usedRules)
              else Some false)
           (Rules e) trueFacts fact usedRules.
Proof. reflexivity. Qed.

Lemma Engine_isDerivable_S (fuel : nat) (e : Interpreter)
    (trueFacts : list FactPtr) (fact : FactPtr) (usedRules : list Rule) :
  Engine._isDerivable (S fuel) e trueFacts fact usedRules
  = if in_ trueFacts fact then Some (mkCall true trueFacts usedRules)
    else tryRules
           (fun conditional =>
              match Engine._isDerivable fuel e trueFacts conditional usedRules with
              | None => None
              | Some call => Some (returned call && in_ trueFacts conditional)
              end)
           (Rules e) trueFacts fact usedRules.
Proof. reflexivity. Qed.

(** The reference helper never recurses deeper than one call: two
    frames are enough for every knowledge base, and this is what it
    returns. *)
Lemma Interpreter_isDerivable_returns (fuel : nat) (e : Interpreter)
    (trueFacts : list FactPtr) (fact : FactPtr) (usedRules : list Rule) :
  Interpreter._isDerivable (S (S fuel)) e trueFacts fact usedRules
  = Some (if in_ trueFacts fact then mkCall true trueFacts usedRules
          else match List.find (settles trueFacts fact) (Rules e) with
               | Some rule => mkCall true (trueFacts ++ [Derivation rule])
                                          (usedRules ++ [rule])
               | None => mkCall false trueFacts usedRules
               end).
Proof.
  rewrite Interpreter_isDerivable_S.
  destruct (in_ trueFacts fact); [reflexivity|].
  apply tryRules_find. intros c.
  rewrite Interpreter_isDerivable_S.
  destruct (in_ trueFacts c); reflexivity.
Qed.

Lemma Interpreter_isDerivable_verdict (fuel : nat) (e : Interpreter)
    (trueFacts : list FactPtr) (fact : FactPtr) (usedRules : list Rule) :
  ∃ call,
    Interpreter._isDerivable (S (S fuel)) e trueFacts fact usedRules = Some call
    ∧ (returned call = true
       ↔ fact ∈ trueFacts
         ∨ ∃ rule, rule ∈ Rules e ∧ Derivation rule = fact
                   ∧ ∀ c, c ∈ Conditionals rule → c ∈ trueFacts).
Proof.
  eexists. split; [apply Interpreter_isDerivable_returns|].
  rewrite <- find_settles, <- in__elem_of.
  destruct (in_ trueFacts fact); simpl; [tauto|].
  destruct (List.find (settles trueFacts fact) (Rules e)) as [rule|]; simpl.
  - split; [intros _; right; by eexists | reflexivity].
  - split; [discriminate | intros [H|[r H]]; discriminate].
Qed.

(** Whenever the helper of [Engine] returns, it returns what the reference
    helper returns. *)
Lemma tryRules_agree (check : FactPtr → option bool) (rules : list Rule)
    (trueFacts : list FactPtr) (fact : FactPtr) (usedRules : list Rule)
    (call : Call) :
  (∀ c b, check c = Some b → b = in_ trueFacts c) →
  tryRules check rules trueFacts fact usedRules = Some call →
  tryRules (fun c => Some (in_ trueFacts c)) rules trueFacts fact usedRules = Some call.
Proof.
  intros Hcheck.
  assert (Hcount : ∀ conds n m, countDerivable check conds n = Some m →
            countDerivable (fun c => Some (in_ trueFacts c)) conds n = Some m).
  { induction conds as [|c cs IHc]; intros n m; simpl; [tauto|].
    destruct (check c) as [b|] eqn:Hc; [|discriminate].
    rewrite <- (Hcheck c b Hc). destruct b; apply IHc. }
  induction rules as [|rule rest IH]; simpl; [tauto|].
  destruct (Nat.eqb (Derivation rule) fact); [|exact IH].
  destruct (countDerivable check (Conditionals rule) 0) as [m|] eqn:Hm; [|discriminate].
  rewrite (Hcount _ _ _ Hm).
  destruct (Nat.eqb m (length (Conditionals rule))); [tauto | exact IH].
Qed.

Lemma Engine_isDerivable_agrees (fuel : nat) (e : Interpreter)
    (trueFacts : list FactPtr) (fact : FactPtr) (usedRules : list Rule)
    (call : Call) :
  Engine._isDerivable fuel e trueFacts fact usedRules = Some call →
  Interpreter._isDerivable (S (S fuel)) e trueFacts fact usedRules = Some call.
Proof.
  destruct fuel as [|fuel]; [discriminate|].
  rewrite Engine_isDerivable_S, Interpreter_isDerivable_returns.
  destruct (in_ trueFacts fact); [tauto|].
  intros H. apply tryRules_agree in H.
  - rewrite (tryRules_find _ _ _ _ _ (fun c => eq_refl)) in H. exact H.
  - intros c b. destruct (Engine._isDerivable fuel e trueFacts c usedRules) as [sub|] eqn:Hsub;
      [|discriminate].
    intros [= <-]. destruct (in_ trueFacts c) eqn:Hc; [|apply andb_false_r].
    destruct fuel as [|fuel]; [discriminate|].
    rewrite Engine_isDerivable_S, Hc in Hsub. injection Hsub as <-. reflexivity.
Qed.

(** ** Name resolution *)

Lemma firstUnknown_app (facts : gmap string FactPtr) (names : list string)
    (queryName : string) :
  firstUnknown facts (names ++ [queryName])
  = match firstUnknown facts names with
    | Some name => Some name
    | None => if unknown facts queryName then Some queryName else None
    end.
Proof.
  unfold firstUnknown.
  induction names as [|n rest IH]; simpl; [reflexivity|].
  destruct (unknown facts n); [reflexivity | exact IH].
Qed.

Lemma firstUnknown_Some (facts : gmap string FactPtr) (names : list string)
    (name : string) :
  firstUnknown facts names = Some name → name ∈ names ∧ facts !! name = None.
Proof.
  intros H. apply find_some in H as [Hin Hunk].
  split; [apply list_elem_of_In, Hin|].
  unfold unknown in Hunk. apply bool_decide_eq_true in Hunk. exact Hunk.
Qed.

Lemma firstUnknown_None (facts : gmap string FactPtr) (names : list string) :
  firstUnknown facts names = None ↔ ∀ name, name ∈ names → is_Some (facts !! name).
Proof.
  split.
  - intros H name Hin. apply list_elem_of_In in Hin.
    pose proof (find_none _ _ H name Hin) as Hk.
    unfold unknown in Hk. apply bool_decide_eq_false in Hk.
    destruct (facts !! name); [by eexists | congruence].
  - intros Hall.
    destruct (firstUnknown facts names) as [name|] eqn:Hfind; [|reflexivity].
    apply firstUnknown_Some in Hfind as [Hin Hnone].
    destruct (Hall name Hin) as [p Hp]. congruence.
Qed.

Lemma convertLoop_unknown (facts : gmap string FactPtr) (shown : string → string)
    (names : list string) (trueFacts : list FactPtr) (name : string) :
  firstUnknown facts names = Some name →
  convertLoop facts shown names trueFacts = inl ("Unknown fact: " +:+ shown name).
Proof.
  unfold firstUnknown, unknown. revert trueFacts.
  induction names as [|n rest IH]; intros trueFacts; simpl; [discriminate|].
  destruct (facts !! n) as [p|] eqn:Hn.
  - rewrite bool_decide_eq_false_2 by discriminate. apply IH.
  - rewrite bool_decide_eq_true_2 by reflexivity. intros [= <-]. reflexivity.
Qed.

Lemma convertLoop_resolved (facts : gmap string FactPtr) (shown : string → string)
    (names : list string) (trueFacts : list FactPtr) :
  firstUnknown facts names = None →
  ∃ ptrs, convertLoop facts shown names trueFacts = inr (trueFacts ++ ptrs)
          ∧ Forall2 (fun name ptr => facts !! name = Some ptr) names ptrs.
Proof.
  unfold firstUnknown, unknown. revert trueFacts.
  induction names as [|n rest IH]; intros trueFacts; simpl.
  - intros _. exists []. rewrite app_nil_r. split; [reflexivity | constructor].
  - destruct (facts !! n) as [p|] eqn:Hn.
    + rewrite bool_decide_eq_false_2 by discriminate. intros Hrest.
      destruct (IH (trueFacts ++ [p]) Hrest) as (ptrs & Hloop & Hall).
      exists (p :: ptrs). rewrite Hloop, <- app_assoc.
      split; [reflexivity | by constructor].
    + rewrite bool_decide_eq_true_2 by reflexivity. discriminate.
Qed.

(** [_convertNames] fails exactly on the first unregistered name of the
    true-fact names followed by the query name, and names it. *)
Lemma convertNames_unknown (e : Interpreter) (names : list string)
    (queryName name : string) :
  firstUnknown (Facts e) (names ++ [queryName]) = Some name →
  Interpreter._convertNames e names queryName = inl ("Unknown fact: " +:+ name).
Proof.
  rewrite firstUnknown_app. unfold Interpreter._convertNames.
  destruct (firstUnknown (Facts e) names) as [n|] eqn:Hnames.
  - intros [= <-]. by rewrite (convertLoop_unknown _ _ _ _ _ Hnames).
  - destruct (convertLoop_resolved (Facts e) (fun n => n) names [] Hnames)
      as (ptrs & -> & _).
    unfold unknown. destruct (Facts e !! queryName) as [p|] eqn:Hq.
    + rewrite bool_decide_eq_false_2 by discriminate. discriminate.
    + rewrite bool_decide_eq_true_2 by reflexivity. intros [= <-]. reflexivity.
Qed.

Lemma convertNames_resolved (e : Interpreter) (names : list string)
    (queryName : string) :
  firstUnknown (Facts e) (names ++ [queryName]) = None →
  ∃ trueFacts queryFact,
    Interpreter._convertNames e names queryName = inr (trueFacts, queryFact)
    ∧ Forall2 (fun name ptr => Facts e !! name = Some ptr) names trueFacts
    ∧ Facts e !! queryName = Some queryFact.
Proof.
  rewrite firstUnknown_app. unfold Interpreter._convertNames.
  destruct (firstUnknown (Facts e) names) as [n|] eqn:Hnames; [discriminate|].
  destruct (convertLoop_resolved (Facts e) (fun n => n) names [] Hnames)
    as (ptrs & -> & Hall).
  unfold unknown. destruct (Facts e !! queryName) as [p|] eqn:Hq.
  - intros _. exists ptrs, p. simpl. tauto.
  - rewrite bool_decide_eq_true_2 by reflexivity. discriminate.
Qed.

Lemma convertNames_inr (e : Interpreter) (names : list string)
    (queryName : string) (trueFacts : list FactPtr) (queryFact : FactPtr) :
  Interpreter._convertNames e names queryName = inr (trueFacts, queryFact) →
  firstUnknown (Facts e) (names ++ [queryName]) = None
  ∧ Forall2 (fun name ptr => Facts e !! name = Some ptr) names trueFacts
  ∧ Facts e !! queryName = Some queryFact.
Proof.
  intros Hconv.
  destruct (firstUnknown (Facts e) (names ++ [queryName])) as [n|] eqn:Hfirst.
  - rewrite (convertNames_unknown _ _ _ _ Hfirst) in Hconv. discriminate.
  - destruct (convertNames_resolved _ _ _ Hfirst) as (tf & qf & Heq & Hall & Hq).
    rewrite Heq in Hconv. injection Hconv as <- <-. tauto.
Qed.

(** [Engine] takes the same decision and differs only in the message. *)
Lemma Engine_convertNames_unknown (e : Interpreter) (names : list string)
    (queryName name : string) :
  firstUnknown (Facts e) (names ++ [queryName]) = Some name →
  Engine._convertNames e names queryName
  = inl ("Unknown fact: "
           +:+ match firstUnknown (Facts e) names with
               | Some _ => showNames names
               | None => queryName
               end).
Proof.
  rewrite firstUnknown_app. unfold Engine._convertNames.
  destruct (firstUnknown (Facts e) names) as [n|] eqn:Hnames.
  - intros _. by rewrite (convertLoop_unknown _ _ _ _ _ Hnames).
  - destruct (convertLoop_resolved (Facts e) (fun _ => showNames names) names [] Hnames)
      as (ptrs & -> & _).
    unfold unknown. destruct (Facts e !! queryName) as [p|] eqn:Hq.
    + rewrite bool_decide_eq_false_2 by discriminate. discriminate.
    + reflexivity.
Qed.

(** A resolved query name that is among the true-fact names resolves
    to a member of the working set. *)
Lemma resolved_query_in (facts : gmap string FactPtr) (names : list string)
    (trueFacts : list FactPtr) (queryName : string) (queryFact : FactPtr) :
  Forall2 (fun name ptr => facts !! name = Some ptr) names trueFacts →
  facts !! queryName = Some queryFact →
  queryName ∈ names → queryFact ∈ trueFacts.
Proof.
  intros Hall Hq Hin.
  induction Hall as [|n p ns ps Hn Hall IH]; [by apply elem_of_nil in Hin|].
  apply elem_of_cons in Hin as [->|Hin].
  - replace queryFact with p by congruence. left.
  - right. apply IH, Hin.
Qed.

(** ** What the loader guarantees *)

Lemma registerFacts_size (facts : list Fact) (ptr : FactPtr)
    (known result : gmap string FactPtr) :
  Interpreter.registerFacts facts ptr known = inr result →
  size result = size known + length facts.
Proof.
  revert ptr known.
  induction facts as [|fact rest IH]; intros ptr known; simpl.
  - intros [= <-]. lia.
  - destruct (known !! Fact_Name fact) eqn:Hknown; [discriminate|].
    intros H. apply IH in H.
    rewrite map_size_insert_None in H by exact Hknown. lia.
Qed.

Lemma resolveConditionals_registered (facts : gmap string FactPtr)
    (jrule : JSONRule) (names : list string) (conditionals result : list FactPtr) :
  Interpreter.resolveConditionals facts jrule names conditionals = inr result →
  (∀ c, c ∈ conditionals → ∃ name, facts !! name = Some c) →
  ∀ c, c ∈ result → ∃ name, facts !! name = Some c.
Proof.
  revert conditionals.
  induction names as [|n rest IH]; intros conditionals; simpl.
  - intros [= <-]. tauto.
  - destruct (facts !! n) as [p|] eqn:Hn; [|discriminate].
    intros H Hacc. apply (IH _ H).
    intros c [Hc|Hc]%elem_of_app; [by apply Hacc|].
    apply list_elem_of_singleton in Hc as ->. by exists n.
Qed.

Lemma buildRules_registered (facts : gmap string FactPtr) (knownRules : gset string)
    (jrules : list JSONRule) (rules result : list Rule) :
  Interpreter.buildRules facts knownRules jrules rules = inr result →
  (∀ r, r ∈ rules → rule_registered facts r) →
  ∀ r, r ∈ result → rule_registered facts r.
Proof.
  revert rules.
  induction jrules as [|jrule rest IH]; intros rules; simpl.
  - intros [= <-]. tauto.
  - destruct (bool_decide (JSONRule_Name jrule ∈ knownRules)); [discriminate|].
    destruct (Interpreter.resolveConditionals facts jrule
                (JSONRule_Conditionals jrule) []) as [err|conds] eqn:Hconds;
      [discriminate|].
    destruct (facts !! JSONRule_Derivation jrule) as [d|] eqn:Hd; [|discriminate].
    intros H Hacc. apply (IH _ H).
    intros r [Hr|Hr]%elem_of_app; [by apply Hacc|].
    apply list_elem_of_singleton in Hr as ->. split; simpl.
    + by eexists.
    + apply (resolveConditionals_registered _ _ _ _ _ Hconds).
      intros c Hc. by apply elem_of_nil in Hc.
Qed.

Lemma fromJSONEngine_registered (jsonEngine : JSONInterpreter) (e : Interpreter) :
  Interpreter._fromJSONEngine jsonEngine = inr e →
  ∀ r, r ∈ Rules e → rule_registered (Facts e) r.
Proof.
  unfold Interpreter._fromJSONEngine.
  destruct (Interpreter.registerFacts (JSON_Facts jsonEngine) 0 ∅) as [err|facts];
    [discriminate|].
  destruct (Interpreter.buildRules facts ∅ (JSON_Rules jsonEngine) [])
    as [err|rules] eqn:Hrules; [discriminate|].
  intros [= <-]. simpl. apply (buildRules_registered _ _ _ _ _ Hrules).
  intros r Hr. by apply elem_of_nil in Hr.
Qed.

(** A loaded knowledge base holds as many facts as the description lists. *)
Lemma fromJSONEngine_size (jsonEngine : JSONInterpreter) (e : Interpreter) :
  Interpreter._fromJSONEngine jsonEngine = inr e →
  size (Facts e) = length (JSON_Facts jsonEngine).
Proof.
  unfold Interpreter._fromJSONEngine.
  destruct (Interpreter.registerFacts (JSON_Facts jsonEngine) 0 ∅)
    as [err|facts] eqn:Hfacts; [discriminate|].
  destruct (Interpreter.buildRules facts ∅ (JSON_Rules jsonEngine) [])
    as [err|rules]; [discriminate|].
  intros [= <-]. simpl. apply registerFacts_size in Hfacts.
  rewrite map_size_empty in Hfacts. exact Hfacts.
Qed.

Lemma length_registered (e : Interpreter) : length (registered e) = size (Facts e).
Proof. unfold registered. rewrite length_fmap. apply length_map_to_list. Qed.

Lemma elem_of_registered (e : Interpreter) (name : string) (fact : FactPtr) :
  Facts e !! name = Some fact → fact ∈ registered e.
Proof.
  intros H. unfold registered.
  apply (list_elem_of_fmap_2' snd _ (name, fact)); [|reflexivity].
  apply elem_of_map_to_list, H.
Qed.

(** A working set that already holds a registered fact misses fewer
    than all of them. *)
Lemma missing_lt (universe trueFacts : list FactPtr) (fact : FactPtr) :
  fact ∈ universe → fact ∈ trueFacts →
  missing universe trueFacts < length universe.
Proof.
  intros Hu Ht. apply in__elem_of in Ht. unfold missing.
  induction universe as [|u rest IH]; [by apply elem_of_nil in Hu|].
  simpl. apply elem_of_cons in Hu as [<-|Hu].
  - rewrite Ht. simpl.
    pose proof (List.filter_length_le (fun f => negb (in_ trueFacts f)) rest). lia.
  - specialize (IH Hu). destruct (in_ trueFacts u); simpl; lia.
Qed.

(** ** Fuel at the level of the exported calls *)

Lemma Forward_fuel_mono (e : Interpreter) (names : list string)
    (queryName : string) (fuel extra : nat) (answer : Answer) :
  Interpreter.Forward fuel e names queryName = Some answer →
  Interpreter.Forward (fuel + extra) e names queryName = Some answer.
Proof.
  unfold Interpreter.Forward, Interpreter.forward.
  destruct (Interpreter._convertNames e names queryName) as [err|[trueFacts queryFact]];
    [tauto|].
  destruct (Interpreter.forward_loop fuel e trueFacts queryFact []) as [result|] eqn:Hloop;
    [|discriminate].
  rewrite (forward_loop_fuel_mono _ _ _ extra _ _ _ Hloop). tauto.
Qed.

Lemma Engine_Forward_fuel_mono (e : Interpreter) (names : list string)
    (queryName : string) (fuel extra : nat) (answer : Answer) :
  Engine.Forward fuel e names queryName = Some answer →
  Engine.Forward (fuel + extra) e names queryName = Some answer.
Proof.
  unfold Engine.Forward.
  destruct (Engine._convertNames e names queryName) as [err|[trueFacts queryFact]];
    [tauto|].
  assert (Hmono : ∀ trueFacts result,
            Engine.forward fuel e trueFacts queryFact = Some result →
            Engine.forward (fuel + extra) e trueFacts queryFact = Some result).
  { clear trueFacts. induction fuel as [|fuel IH]; intros trueFacts result; [discriminate|].
    replace (S fuel + extra) with (S (fuel + extra)) by lia.
    rewrite !Engine_forward_round.
    destruct (fired (Rules e) trueFacts); [tauto | apply IH]. }
  destruct (Engine.forward fuel e trueFacts queryFact) as [result|] eqn:Hloop;
    [|discriminate].
  rewrite (Hmono _ _ Hloop). tauto.
Qed.

(** The loader produces the knowledge bases used below. *)
Lemma loaded_knowledge_bases :
  Interpreter._fromJSONEngine json_basic = inr kb_basic
  ∧ Interpreter._fromJSONEngine json_chained = inr kb_chained
  ∧ Interpreter._fromJSONEngine json_twice = inr kb_twice
  ∧ Interpreter._fromJSONEngine json_unconditional = inr kb_unconditional
  ∧ Interpreter._fromJSONEngine json_cycle = inr kb_cycle.
Proof. repeat split; vm_compute; reflexivity. Qed.

(** ** Forward chaining: the rounds *)

(** C1 (the code departs from the claim).  The test of a round counts
    matching pairs instead of testing membership, so a consequent that
    two rules of one round both produced stands twice in the working set
    and counts twice.  With R1: [a] -> b, R2: [a] -> b, R3: [b, c] -> d
    and the true facts [a], the first round fires R1 and R2; in the
    second round, on the working set a, b, b, the rule R3 passes the
    test although its antecedent c is not in the working set, and
    [Forward] answers that d is derived. *)
Theorem forward_round_counts_duplicates :
  Interpreter._fromJSONEngine json_twice = inr kb_twice
  ∧ Interpreter._convertNames kb_twice ["a"] "d" = inr ([0], 3)
  ∧ fired (Rules kb_twice) [0] = [mkRule "R1" [0] 1; mkRule "R2" [0] 1]
  ∧ fired (Rules kb_twice) [0; 1; 1] = [mkRule "R3" [1; 2] 3]
  ∧ in_ [0; 1; 1] 2 = false
  ∧ (∀ fuel, Interpreter.Forward (3 + fuel) kb_twice ["a"] "d"
             = Some (true, ["R1"; "R2"; "R3"], None))
  ∧ ¬ Derivable (Rules kb_twice) [0] 3.
Proof.
  split; [vm_compute; reflexivity|].
  split; [vm_compute; reflexivity|].
  split; [vm_compute; reflexivity|].
  split; [vm_compute; reflexivity|].
  split; [reflexivity|].
  split.
  - intros fuel. apply Forward_fuel_mono. vm_compute. reflexivity.
  - assert (Hsmall : ∀ fact, Derivable (Rules kb_twice) [0] fact → fact = 0 ∨ fact = 1).
    { intros fact H. induction H as [fact Hin|rule Hin Hconds IH].
      - apply list_elem_of_singleton in Hin. tauto.
      - simpl in Hin. rewrite !elem_of_cons, elem_of_nil in Hin.
        destruct Hin as [->|[->|[->|[]]]]; simpl in *; [tauto | tauto |].
        assert (Hc : 2 ∈ [1; 2]) by (right; left).
        destruct (IH 2 Hc); discriminate. }
    intros H. apply Hsmall in H as [?|?]; discriminate.
Qed.

(** C2.  On the chained knowledge base (facts a, b, c; R1: [a] -> b;
    R2: [b] -> c) the call [Forward(["a"], "c")] returns the verdict
    [true] and the trail R1, R2: the rules of both firing rounds, in
    firing order.  The loop returns in its third round, the one that
    fires nothing. *)
Theorem forward_chained_trail :
  Interpreter._fromJSONEngine json_chained = inr kb_chained
  ∧ Interpreter.Forward 2 kb_chained ["a"] "c" = None
  ∧ ∀ fuel, Interpreter.Forward (3 + fuel) kb_chained ["a"] "c"
            = Some (true, ["R1"; "R2"], None).
Proof.
  split; [vm_compute; reflexivity|].
  split; [vm_compute; reflexivity|].
  intros fuel. apply Forward_fuel_mono. vm_compute. reflexivity.
Qed.

(** [Engine], which restarts the trail in every round, returns the
    same verdict with an empty trail. *)
Lemma Engine_forward_chained_trail :
  ∀ fuel, Engine.Forward (3 + fuel) kb_chained ["a"] "c" = Some (true, [], None).
Proof.
  intros fuel. apply Engine_Forward_fuel_mono. vm_compute. reflexivity.
Qed.

(** ** Backward chaining *)

Lemma Backward_returns (e : Interpreter) (names : list string)
    (queryName : string) (trueFacts : list FactPtr) (queryFact : FactPtr)
    (fuel : nat) :
  Interpreter._convertNames e names queryName = inr (trueFacts, queryFact) →
  ∃ call,
    Interpreter._isDerivable (S (S fuel)) e trueFacts queryFact [] = Some call
    ∧ Interpreter.Backward (S (S fuel)) e names queryName
      = Some (returned call, [], None).
Proof.
  intros Hconv. unfold Interpreter.Backward, Interpreter.backward.
  rewrite Hconv.
  destruct (Interpreter_isDerivable_verdict fuel e trueFacts queryFact [])
    as (call & Hcall & _).
  exists call. rewrite Hcall. split; reflexivity.
Qed.

(** C3.  For every knowledge base and every resolved input, [Backward]
    returns, and its verdict is [true] exactly when the query fact is
    in the initial working set or some rule with the query as consequent
    has all its antecedents in the initial working set.  An antecedent
    that is not in the working set is never established by recursion, so
    backward chaining derives less than forward chaining: on the chained
    knowledge base, c follows from a forwards but not backwards. *)
Theorem backward_strict_antecedents :
  (∀ (e : Interpreter) (names : list string) (queryName : string)
     (trueFacts : list FactPtr) (queryFact : FactPtr) (fuel : nat),
     Interpreter._convertNames e names queryName = inr (trueFacts, queryFact) →
     ∃ isDerived trail,
       Interpreter.Backward (S (S fuel)) e names queryName
       = Some (isDerived, trail, None)
       ∧ (isDerived = true
          ↔ queryFact ∈ trueFacts
            ∨ ∃ rule, rule ∈ Rules e ∧ Derivation rule = queryFact
                      ∧ ∀ c, c ∈ Conditionals rule → c ∈ trueFacts))
  ∧ Interpreter.Forward 3 kb_chained ["a"] "c" = Some (true, ["R1"; "R2"], None)
  ∧ Interpreter.Backward 2 kb_chained ["a"] "c" = Some (false, [], None).
Proof.
  split; [|split; vm_compute; reflexivity].
  - intros e names queryName trueFacts queryFact fuel Hconv.
    destruct (Backward_returns _ _ _ _ _ fuel Hconv) as (call & Hcall & Hback).
    destruct (Interpreter_isDerivable_verdict fuel e trueFacts queryFact [])
      as (call' & Hcall' & Hiff).
    rewrite Hcall in Hcall'. injection Hcall' as <-.
    exists (returned call), []. split; [exact Hback | exact Hiff].
Qed.

Lemma backward_strict_antecedents_witness :
  ∃ isDerived trail,
    Interpreter.Backward 2 kb_basic ["f1"; "f2"] "f3" = Some (isDerived, trail, None)
    ∧ (isDerived = true
       ↔ 2 ∈ [0; 1]
         ∨ ∃ rule, rule ∈ Rules kb_basic ∧ Derivation rule = 2
                   ∧ ∀ c, c ∈ Conditionals rule → c ∈ [0; 1]).
Proof.
  apply (proj1 backward_strict_antecedents kb_basic ["f1"; "f2"] "f3" [0; 1] 2 0).
  vm_compute. reflexivity.
Defined.

(** C4 (the code departs from the claim).  On the knowledge base with
    facts f1, f2, f3 and R1: [f1, f2] -> f3, the call
    [Backward(["f1","f2"], "f3")] returns the verdict [true] with an
    empty trail, not the trail R1: the helper does append R1, but to
    its own copy of the slice, as its state at the return shows. *)
Theorem backward_basic_trail_lost :
  Interpreter._fromJSONEngine json_basic = inr kb_basic
  ∧ Interpreter._convertNames kb_basic ["f1"; "f2"] "f3" = inr ([0; 1], 2)
  ∧ ∀ fuel,
      Interpreter._isDerivable (2 + fuel) kb_basic [0; 1] 2 []
      = Some (mkCall true [0; 1; 2] [mkRule "R1" [0; 1] 2])
      ∧ Interpreter.Backward (2 + fuel) kb_basic ["f1"; "f2"] "f3"
        = Some (true, [], None).
Proof.
  split; [vm_compute; reflexivity|].
  assert (Hconv : Interpreter._convertNames kb_basic ["f1"; "f2"] "f3" = inr ([0; 1], 2))
    by (vm_compute; reflexivity).
  split; [exact Hconv|].
  intros fuel. change (2 + fuel) with (S (S fuel)).
  destruct (Backward_returns _ _ _ _ _ fuel Hconv) as (call & Hcall & Hback).
  rewrite Hback, Hcall.
  rewrite Interpreter_isDerivable_returns in Hcall. injection Hcall as <-.
  split; reflexivity.
Qed.

(** ** Termination *)

(** The body of the loop runs once more than rounds fire.  With one
    fact a, the rule R1: [] -> a and no true facts, the first round
    fires R1 and the second pass through the body, which fires nothing,
    returns: as many passes as there are facts are not enough. *)
Lemma forward_needs_one_more_round :
  Interpreter._fromJSONEngine json_unconditional = inr kb_unconditional
  ∧ size (Facts kb_unconditional) = 1
  ∧ Interpreter._convertNames kb_unconditional [] "a" = inr ([], 0)
  ∧ Interpreter.forward 1 kb_unconditional [] 0 = None
  ∧ Interpreter.forward 2 kb_unconditional [] 0 = Some (true, [mkRule "R1" [] 0])
  ∧ ¬ (∀ (jsonEngine : JSONInterpreter) (e : Interpreter) (names : list string)
         (queryName : string) (trueFacts : list FactPtr) (queryFact : FactPtr),
         Interpreter._fromJSONEngine jsonEngine = inr e →
         Interpreter._convertNames e names queryName = inr (trueFacts, queryFact) →
         is_Some (Interpreter.forward (size (Facts e)) e trueFacts queryFact)).
Proof.
  repeat (split; [vm_compute; reflexivity|]).
  intros H.
  destruct (H json_unconditional kb_unconditional [] "a" [] 0) as [result Hresult].
  - vm_compute. reflexivity.
  - vm_compute. reflexivity.
  - vm_compute in Hresult. discriminate.
Qed.

(** In passes through the loop body: for a loaded knowledge base with
    F facts and a resolved input the loop returns within F + 1 passes,
    the firing rounds and the pass that fires nothing, and within F
    passes when at least one true fact is supplied. *)
Theorem forward_terminates_within_facts_plus_one
    (jsonEngine : JSONInterpreter) (e : Interpreter) (names : list string)
    (queryName : string) (trueFacts : list FactPtr) (queryFact : FactPtr) :
  Interpreter._fromJSONEngine jsonEngine = inr e →
  Interpreter._convertNames e names queryName = inr (trueFacts, queryFact) →
  (∀ workingSet rule,
     rule ∈ fired (Rules e) workingSet →
     (Derivation rule ∉ workingSet) ∧ Derivation rule ∈ registered e)
  ∧ is_Some (Interpreter.forward (S (size (Facts e))) e trueFacts queryFact)
  ∧ (names ≠ [] →
     is_Some (Interpreter.forward (size (Facts e)) e trueFacts queryFact)).
Proof.
  intros Hload Hconv.
  assert (Hwf : ∀ r, r ∈ Rules e → Derivation r ∈ registered e).
  { intros r Hr.
    destruct (fromJSONEngine_registered _ _ Hload r Hr) as [[name Hname] _].
    apply (elem_of_registered _ _ _ Hname). }
  split; [|split].
  - intros workingSet rule [Hrule Hfires]%fired_fires. split.
    + apply in__false, fires_not_derived, Hfires.
    + apply Hwf, Hrule.
  - apply (forward_loop_returns (registered e)); [exact Hwf|].
    pose proof (missing_le (registered e) trueFacts) as Hle.
    rewrite length_registered in Hle. lia.
  - intros Hnames.
    apply (forward_loop_returns (registered e)); [exact Hwf|].
    rewrite <- length_registered.
    apply convertNames_inr in Hconv as (_ & Hall & _).
    destruct Hall as [|name fact names' facts' Hname Hall]; [congruence|].
    apply (missing_lt _ _ fact); [apply (elem_of_registered _ _ _ Hname) | left].
Qed.

Lemma forward_terminates_within_facts_plus_one_witness :
  (∀ workingSet rule,
     rule ∈ fired (Rules kb_chained) workingSet →
     (Derivation rule ∉ workingSet) ∧ Derivation rule ∈ registered kb_chained)
  ∧ is_Some (Interpreter.forward (S (size (Facts kb_chained))) kb_chained [0] 2)
  ∧ (["a"] ≠ [] →
     is_Some (Interpreter.forward (size (Facts kb_chained)) kb_chained [0] 2)).
Proof.
  apply (forward_terminates_within_facts_plus_one json_chained kb_chained ["a"] "c").
  - vm_compute. reflexivity.
  - vm_compute. reflexivity.
Defined.

Lemma firingRounds_round (fuel : nat) (e : Interpreter) (trueFacts : list FactPtr) :
  firingRounds (S fuel) e trueFacts
  = match fired (Rules e) trueFacts with
    | [] => Some 0
    | _ :: _ =>
        option_map S
          (firingRounds fuel e (trueFacts ++ map Derivation (fired (Rules e) trueFacts)))
    end.
Proof.
  simpl. rewrite scanRules_fired, appendAll_app. simpl.
  destruct (fired (Rules e) trueFacts); reflexivity.
Qed.

(** The rounds that fire are at most the registered facts the working
    set still misses. *)
Lemma firingRounds_bound (universe : list FactPtr) (e : Interpreter) :
  (∀ r, r ∈ Rules e → Derivation r ∈ universe) →
  ∀ (fuel : nat) (trueFacts : list FactPtr),
    missing universe trueFacts < fuel →
    ∃ rounds, firingRounds fuel e trueFacts = Some rounds
              ∧ rounds ≤ missing universe trueFacts.
Proof.
  intros Hwf fuel.
  induction fuel as [|fuel IH]; intros trueFacts Hlt; [lia|].
  rewrite firingRounds_round.
  destruct (fired (Rules e) trueFacts) as [|rule others] eqn:Hfired.
  - exists 0. split; [reflexivity | lia].
  - pose proof (round_progress universe _ _ _ _ Hwf Hfired) as Hless.
    rewrite <- Hfired.
    destruct (IH (trueFacts ++ map Derivation (fired (Rules e) trueFacts)))
      as (rounds & -> & Hle); [lia|].
    exists (S rounds). split; [reflexivity | lia].
Qed.

(** After the counted rounds the loop returns, in the next pass through
    its body and not before. *)
Lemma firingRounds_exact (e : Interpreter) (query : FactPtr) (fuel rounds : nat)
    (trueFacts : list FactPtr) (usedRules : list Rule) :
  firingRounds fuel e trueFacts = Some rounds →
  is_Some (Interpreter.forward_loop (S rounds) e trueFacts query usedRules)
  ∧ Interpreter.forward_loop rounds e trueFacts query usedRules = None.
Proof.
  revert rounds trueFacts usedRules.
  induction fuel as [|fuel IH]; intros rounds trueFacts usedRules; [discriminate|].
  rewrite firingRounds_round, forward_loop_round.
  destruct (fired (Rules e) trueFacts) as [|rule others] eqn:Hfired.
  - intros [= <-]. split; [by eexists | reflexivity].
  - rewrite <- Hfired.
    destruct (firingRounds fuel e (trueFacts ++ map Derivation (fired (Rules e) trueFacts)))
      as [n|] eqn:Hn; [|discriminate].
    intros [= <-].
    destruct (IH n _ (usedRules ++ fired (Rules e) trueFacts) Hn) as [Hsome Hnone].
    split; [exact Hsome|].
    rewrite forward_loop_round, Hfired. rewrite <- Hfired. exact Hnone.
Qed.

(** C5.  Forward chaining terminates within F rounds.  For a loaded
    knowledge base with F facts and a resolved input, every round that
    fires a rule adds a registered fact that was not in the working
    set; so the rounds that fire, counted as the specification counts
    them (the round that finds nothing new ends the loop and is not
    counted), are at most F, and after them the loop returns. *)
Theorem forward_terminates_within_fact_count
    (jsonEngine : JSONInterpreter) (e : Interpreter) (names : list string)
    (queryName : string) (trueFacts : list FactPtr) (queryFact : FactPtr) :
  Interpreter._fromJSONEngine jsonEngine = inr e →
  Interpreter._convertNames e names queryName = inr (trueFacts, queryFact) →
  (∀ workingSet rule,
     rule ∈ fired (Rules e) workingSet →
     (Derivation rule ∉ workingSet) ∧ Derivation rule ∈ registered e)
  ∧ ∃ rounds isDerived trail,
      rounds ≤ size (Facts e)
      ∧ firingRounds (S (size (Facts e))) e trueFacts = Some rounds
      ∧ Interpreter.forward rounds e trueFacts queryFact = None
      ∧ Interpreter.forward (S rounds) e trueFacts queryFact = Some (isDerived, trail).
Proof.
  intros Hload Hconv.
  assert (Hwf : ∀ r, r ∈ Rules e → Derivation r ∈ registered e).
  { intros r Hr.
    destruct (fromJSONEngine_registered _ _ Hload r Hr) as [[name Hname] _].
    apply (elem_of_registered _ _ _ Hname). }
  split.
  - intros workingSet rule [Hrule Hfires]%fired_fires. split.
    + apply in__false, fires_not_derived, Hfires.
    + apply Hwf, Hrule.
  - pose proof (missing_le (registered e) trueFacts) as Hle.
    rewrite length_registered in Hle.
    destruct (firingRounds_bound (registered e) e Hwf (S (size (Facts e))) trueFacts)
      as (rounds & Hrounds & Hbound); [lia|].
    destruct (firingRounds_exact e queryFact _ rounds trueFacts [] Hrounds)
      as [[[isDerived trail] Hsome] Hnone].
    exists rounds, isDerived, trail.
    split; [lia|]. split; [exact Hrounds|]. split; [exact Hnone | exact Hsome].
Qed.

Lemma forward_terminates_within_fact_count_witness :
  (∀ workingSet rule,
     rule ∈ fired (Rules kb_chained) workingSet →
     (Derivation rule ∉ workingSet) ∧ Derivation rule ∈ registered kb_chained)
  ∧ ∃ rounds isDerived trail,
      rounds ≤ size (Facts kb_chained)
      ∧ firingRounds (S (size (Facts kb_chained))) kb_chained [0] = Some rounds
      ∧ Interpreter.forward rounds kb_chained [0] 2 = None
      ∧ Interpreter.forward (S rounds) kb_chained [0] 2 = Some (isDerived, trail).
Proof.
  apply (forward_terminates_within_fact_count json_chained kb_chained ["a"] "c").
  - vm_compute. reflexivity.
  - vm_compute. reflexivity.
Defined.

(** Neither helper detects cycles.  In [Engine], whose inner
    condition makes the recursive call before the membership test, the
    knowledge base with R1: [b] -> a and R2: [a] -> b (each consequent
    an antecedent of the other rule) and the registered query a make the
    recursion go on for ever: no depth is enough for the call to
    return. *)
Lemma Engine_backward_diverges_on_cycle :
  (∃ r1 r2, r1 ∈ Rules kb_cycle ∧ r2 ∈ Rules kb_cycle
            ∧ Derivation r1 ∈ Conditionals r2 ∧ Derivation r2 ∈ Conditionals r1)
  ∧ Engine._convertNames kb_cycle [] "a" = inr ([], 0)
  ∧ (∀ fuel, Engine._isDerivable fuel kb_cycle [] 0 [] = None)
  ∧ (∀ fuel, Engine.Backward fuel kb_cycle [] "a" = None).
Proof.
  assert (Hboth : ∀ fuel, Engine._isDerivable fuel kb_cycle [] 0 [] = None
                          ∧ Engine._isDerivable fuel kb_cycle [] 1 [] = None).
  { induction fuel as [|fuel [IHa IHb]]; [split; reflexivity|].
    rewrite !Engine_isDerivable_S. simpl. rewrite IHa, IHb. split; reflexivity. }
  split; [|split; [|split]].
  - exists (mkRule "R1" [1] 0), (mkRule "R2" [0] 1). simpl.
    rewrite !elem_of_cons. tauto.
  - vm_compute. reflexivity.
  - intros fuel. apply Hboth.
  - intros fuel. unfold Engine.Backward, Engine.backward.
    replace (Engine._convertNames kb_cycle [] "a") with
      (inr ([], 0) : error + (list FactPtr * FactPtr)) by (vm_compute; reflexivity).
    rewrite (proj1 (Hboth fuel)). reflexivity.
Qed.

(** The reference helper makes the membership test first and so never
    goes deeper than one call; on the same input it returns [false]. *)
Lemma Interpreter_backward_returns_on_cycle :
  ∀ fuel, Interpreter.Backward (2 + fuel) kb_cycle [] "a" = Some (false, [], None).
Proof.
  intros fuel. change (2 + fuel) with (S (S fuel)).
  assert (Hconv : Interpreter._convertNames kb_cycle [] "a" = inr ([], 0))
    by (vm_compute; reflexivity).
  destruct (Backward_returns _ _ _ _ _ fuel Hconv) as (call & Hcall & ->).
  rewrite Interpreter_isDerivable_returns in Hcall. injection Hcall as <-.
  reflexivity.
Qed.

(** C6 as stated fails on the reference implementation.  Its
    [_isDerivable] makes the recursive call only on an antecedent that
    is in the working set, where the call returns at once: [Backward]
    returns on every knowledge base and every resolved input, and on
    the knowledge base with the cycle R1: [b] -> a, R2: [a] -> b it
    answers [false] for the query a. *)
Lemma Interpreter_backward_returns_on_every_cycle :
  (∀ (e : Interpreter) (names : list string) (queryName : string)
     (trueFacts : list FactPtr) (queryFact : FactPtr) (fuel : nat),
     Interpreter._convertNames e names queryName = inr (trueFacts, queryFact) →
     ∃ isDerived,
       Interpreter.Backward (S (S fuel)) e names queryName = Some (isDerived, [], None))
  ∧ (∃ r1 r2, r1 ∈ Rules kb_cycle ∧ r2 ∈ Rules kb_cycle
              ∧ Derivation r1 ∈ Conditionals r2 ∧ Derivation r2 ∈ Conditionals r1)
  ∧ Interpreter._convertNames kb_cycle [] "a" = inr ([], 0)
  ∧ ∀ fuel, Interpreter.Backward (2 + fuel) kb_cycle [] "a" = Some (false, [], None).
Proof.
  split; [|split; [|split]].
  - intros e names queryName trueFacts queryFact fuel Hconv.
    destruct (Backward_returns _ _ _ _ _ fuel Hconv) as (call & _ & Hback).
    by exists (returned call).
  - exists (mkRule "R1" [1] 0), (mkRule "R2" [0] 1). simpl.
    rewrite !elem_of_cons. tauto.
  - vm_compute. reflexivity.
  - apply Interpreter_backward_returns_on_cycle.
Qed.

(** C6, amended.  Backward chaining has no cycle detection.  In the
    reference implementation it needs none: the helper recurses only
    into antecedents that are already in the working set, so the
    recursion is never deeper than one nested call and [backward]
    returns on every knowledge base, with or without cycles.  In
    [Engine], whose helper makes the recursive call before the
    membership test, the knowledge base with R1: [b] -> a and
    R2: [a] -> b and the registered query a make the recursion go on
    for ever. *)
Theorem backward_recursion_on_cycles :
  (∀ (e : Interpreter) (trueFacts : list FactPtr) (fact : FactPtr)
     (usedRules : list Rule) (fuel : nat),
     ∃ call,
       Interpreter._isDerivable (S (S fuel)) e trueFacts fact usedRules = Some call)
  ∧ (∀ (e : Interpreter) (trueFacts : list FactPtr) (query : FactPtr) (fuel : nat),
       ∃ isDerived,
         Interpreter.backward (S (S fuel)) e trueFacts query = Some (isDerived, []))
  ∧ (∃ r1 r2, r1 ∈ Rules kb_cycle ∧ r2 ∈ Rules kb_cycle
              ∧ Derivation r1 ∈ Conditionals r2 ∧ Derivation r2 ∈ Conditionals r1)
  ∧ Engine._convertNames kb_cycle [] "a" = inr ([], 0)
  ∧ (∀ fuel, Engine._isDerivable fuel kb_cycle [] 0 [] = None)
  ∧ (∀ fuel, Engine.Backward fuel kb_cycle [] "a" = None)
  ∧ (∀ fuel, Interpreter.Backward (2 + fuel) kb_cycle [] "a" = Some (false, [], None)).
Proof.
  split; [|split].
  - intros e trueFacts fact usedRules fuel. eexists.
    apply Interpreter_isDerivable_returns.
  - intros e trueFacts query fuel. unfold Interpreter.backward.
    rewrite Interpreter_isDerivable_returns. by eexists.
  - destruct Engine_backward_diverges_on_cycle as (Hcycle & Hconv & Hhelper & Hback).
    split; [exact Hcycle|]. split; [exact Hconv|]. split; [exact Hhelper|].
    split; [exact Hback | apply Interpreter_backward_returns_on_cycle].
Qed.

(** ** Errors *)

Lemma convertNames_inl_iff (e : Interpreter) (names : list string)
    (queryName : string) :
  (∃ err, Interpreter._convertNames e names queryName = inl err)
  ↔ ∃ name, name ∈ names ++ [queryName] ∧ Facts e !! name = None.
Proof.
  split.
  - intros [err Herr].
    destruct (firstUnknown (Facts e) (names ++ [queryName])) as [name|] eqn:Hfirst.
    + exists name. apply firstUnknown_Some, Hfirst.
    + destruct (convertNames_resolved _ _ _ Hfirst) as (tf & qf & Heq & _).
      congruence.
  - intros (name & Hin & Hnone).
    destruct (firstUnknown (Facts e) (names ++ [queryName])) as [first|] eqn:Hfirst.
    + eexists. apply convertNames_unknown, Hfirst.
    + destruct (proj1 (firstUnknown_None _ _) Hfirst name Hin) as [p Hp]. congruence.
Qed.

Lemma Forward_raises (e : Interpreter) (names : list string)
    (queryName : string) (fuel : nat) :
  raises (Interpreter.Forward fuel e names queryName)
  ↔ ∃ err, Interpreter._convertNames e names queryName = inl err.
Proof.
  unfold raises, Interpreter.Forward.
  destruct (Interpreter._convertNames e names queryName) as [err|[trueFacts queryFact]].
  - split; [by eexists | intros _; by eexists _, _, _].
  - split; [|intros [err Herr]; discriminate].
    intros (b & t & err & H).
    destruct (Interpreter.forward fuel e trueFacts queryFact) as [[? ?]|]; discriminate.
Qed.

Lemma Backward_raises (e : Interpreter) (names : list string)
    (queryName : string) (fuel : nat) :
  raises (Interpreter.Backward fuel e names queryName)
  ↔ ∃ err, Interpreter._convertNames e names queryName = inl err.
Proof.
  unfold raises, Interpreter.Backward.
  destruct (Interpreter._convertNames e names queryName) as [err|[trueFacts queryFact]].
  - split; [by eexists | intros _; by eexists _, _, _].
  - split; [|intros [err Herr]; discriminate].
    intros (b & t & err & H).
    destruct (Interpreter.backward fuel e trueFacts queryFact) as [[? ?]|]; discriminate.
Qed.

(** C7.  [Forward] and [Backward] return an error exactly when one of
    the true-fact names or the query name is missing from the fact map.
    The answer is then [(false, nil, "Unknown fact: " + name)] for the
    first such name, true-fact names first and the query name last, and
    it is the answer whatever number of rounds or calls is allowed,
    none included: nothing is inferred before it.  In particular
    [Forward(["f1","f2","f9"], "f3")] fails on f9. *)
Theorem unknown_fact_error (e : Interpreter) (names : list string)
    (queryName : string) (fuel : nat) :
  (raises (Interpreter.Forward fuel e names queryName)
   ↔ ∃ name, name ∈ names ++ [queryName] ∧ Facts e !! name = None)
  ∧ (raises (Interpreter.Backward fuel e names queryName)
     ↔ ∃ name, name ∈ names ++ [queryName] ∧ Facts e !! name = None)
  ∧ (∀ name,
       firstUnknown (Facts e) (names ++ [queryName]) = Some name →
       Interpreter.Forward fuel e names queryName
       = Some (false, [], Some ("Unknown fact: " +:+ name))
       ∧ Interpreter.Backward fuel e names queryName
         = Some (false, [], Some ("Unknown fact: " +:+ name)))
  ∧ Interpreter.Forward fuel kb_basic ["f1"; "f2"; "f9"] "f3"
    = Some (false, [], Some "Unknown fact: f9").
Proof.
  split; [|split; [|split]].
  - rewrite Forward_raises. apply convertNames_inl_iff.
  - rewrite Backward_raises. apply convertNames_inl_iff.
  - intros name Hfirst. unfold Interpreter.Forward, Interpreter.Backward.
    rewrite (convertNames_unknown _ _ _ _ Hfirst). split; reflexivity.
  - unfold Interpreter.Forward.
    rewrite (convertNames_unknown kb_basic _ _ "f9"); [reflexivity|].
    vm_compute. reflexivity.
Qed.

Lemma unknown_fact_error_witness :
  Interpreter.Forward 0 kb_basic ["f1"; "f2"; "f9"] "f3"
  = Some (false, [], Some ("Unknown fact: " +:+ "f9"))
  ∧ Interpreter.Backward 0 kb_basic ["f1"; "f2"; "f9"] "f3"
    = Some (false, [], Some ("Unknown fact: " +:+ "f9")).
Proof.
  apply (proj1 (proj2 (proj2 (unknown_fact_error kb_basic ["f1"; "f2"; "f9"] "f3" 0)))).
  vm_compute. reflexivity.
Defined.

(** [Engine] fails on the same inputs but prints the whole list of
    true-fact names when one of them is missing. *)
Lemma Engine_unknown_fact_message (fuel : nat) :
  Engine.Forward fuel kb_basic ["f1"; "f2"; "f9"] "f3"
  = Some (false, [], Some "Unknown fact: [f1 f2 f9]").
Proof.
  unfold Engine.Forward.
  rewrite (Engine_convertNames_unknown kb_basic _ _ "f9"); [reflexivity|].
  vm_compute. reflexivity.
Qed.

(** ** The base case *)

(** C8 as stated fails for [Forward]: it saturates before it looks for
    the query.  With f1 and f2 true and the query f1, the rule R1 fires
    and is in the trail. *)
Lemma forward_base_case_fires_rules :
  Interpreter._convertNames kb_basic ["f1"; "f2"] "f1" = inr ([0; 1], 0)
  ∧ "f1" ∈ ["f1"; "f2"]
  ∧ ∀ fuel, Interpreter.Forward (2 + fuel) kb_basic ["f1"; "f2"] "f1"
            = Some (true, ["R1"], None).
Proof.
  split; [vm_compute; reflexivity|].
  split; [left|].
  intros fuel. apply Forward_fuel_mono. vm_compute. reflexivity.
Qed.

Lemma saturation_round (fuel : nat) (rules : list Rule) (trueFacts : list FactPtr) :
  saturation (S fuel) rules trueFacts
  = match fired rules trueFacts with
    | [] => Some (trueFacts, [])
    | _ :: _ =>
        match saturation fuel rules
                (trueFacts ++ map Derivation (fired rules trueFacts)) with
        | Some (final, later) => Some (final, fired rules trueFacts ++ later)
        | None => None
        end
    end.
Proof. unfold fired. simpl. destruct (List.filter _ rules); reflexivity. Qed.

(** What [forward] returns is read off the saturation: the verdict is
    the membership of the query in the saturated working set, the
    trail is the rules fired in all the rounds. *)
Lemma forward_loop_saturation (fuel : nat) (e : Interpreter)
    (trueFacts : list FactPtr) (query : FactPtr) (usedRules : list Rule) :
  Interpreter.forward_loop fuel e trueFacts query usedRules
  = match saturation fuel (Rules e) trueFacts with
    | Some (final, trail) => Some (in_ final query, usedRules ++ trail)
    | None => None
    end.
Proof.
  revert trueFacts usedRules.
  induction fuel as [|fuel IH]; intros trueFacts usedRules; [reflexivity|].
  rewrite forward_loop_round, saturation_round.
  destruct (fired (Rules e) trueFacts) as [|rule others] eqn:Hfired.
  - rewrite app_nil_r. reflexivity.
  - rewrite <- Hfired, IH.
    destruct (saturation fuel (Rules e)
                (trueFacts ++ map Derivation (fired (Rules e) trueFacts)))
      as [[final later]|]; [|reflexivity].
    rewrite <- app_assoc. reflexivity.
Qed.

(** Saturation ends on a working set on which no rule fires; it fires
    nothing at all exactly when no rule fires on the initial one. *)
Lemma saturation_saturated (fuel : nat) (rules : list Rule)
    (trueFacts final : list FactPtr) (trail : list Rule) :
  saturation fuel rules trueFacts = Some (final, trail) →
  fired rules final = []
  ∧ (∀ fact, fact ∈ trueFacts → fact ∈ final)
  ∧ (trail = [] ↔ fired rules trueFacts = []).
Proof.
  revert trueFacts trail.
  induction fuel as [|fuel IH]; intros trueFacts trail; [discriminate|].
  rewrite saturation_round.
  destruct (fired rules trueFacts) as [|rule others] eqn:Hfired.
  - intros [= <- <-]. tauto.
  - rewrite <- Hfired.
    destruct (saturation fuel rules (trueFacts ++ map Derivation (fired rules trueFacts)))
      as [[final' later]|] eqn:Hsat; [|discriminate].
    intros [= <- <-]. destruct (IH _ _ Hsat) as (Hquiet & Hsup & _).
    split; [exact Hquiet|]. split.
    + intros fact Hfact. apply Hsup, elem_of_app. by left.
    + rewrite Hfired. split; discriminate.
Qed.

(** C8, amended.  When the query name is among the resolved true-fact
    names, [Backward] returns [true] with an empty trail at once.
    [Forward] returns [true] too, but only after it has saturated the
    working set: it runs round after round until no rule fires, and
    its trail names the rules fired in all these rounds, in firing
    order.  The trail is empty exactly when no rule fires on the
    initial working set. *)
Theorem base_case_verdict (e : Interpreter) (names : list string)
    (queryName : string) (trueFacts : list FactPtr) (queryFact : FactPtr) :
  Interpreter._convertNames e names queryName = inr (trueFacts, queryFact) →
  queryName ∈ names →
  (∀ fuel, Interpreter.Backward (S fuel) e names queryName = Some (true, [], None))
  ∧ (∀ fuel, length (Rules e) < fuel →
       ∃ final usedRules,
         saturation fuel (Rules e) trueFacts = Some (final, usedRules)
         ∧ fired (Rules e) final = []
         ∧ Interpreter.Forward fuel e names queryName
           = Some (true, map Name usedRules, None)
         ∧ (map Name usedRules = [] ↔ fired (Rules e) trueFacts = [])).
Proof.
  intros Hconv Hquery.
  pose proof (convertNames_inr _ _ _ _ _ Hconv) as (_ & Hall & Hq).
  pose proof (resolved_query_in _ _ _ _ _ Hall Hq Hquery) as Hin.
  split.
  - intros fuel. unfold Interpreter.Backward, Interpreter.backward.
    apply in__elem_of in Hin.
    rewrite Hconv, Interpreter_isDerivable_S, Hin. reflexivity.
  - intros fuel Hfuel.
    destruct (forward_loop_total e trueFacts queryFact [] fuel Hfuel)
      as [[isDerived trail] Hloop].
    rewrite forward_loop_saturation in Hloop.
    destruct (saturation fuel (Rules e) trueFacts) as [[final usedRules]|] eqn:Hsat;
      [|discriminate].
    destruct (saturation_saturated _ _ _ _ _ Hsat) as (Hquiet & Hsup & Hempty).
    exists final, usedRules. split; [reflexivity|]. split; [exact Hquiet|].
    split.
    + unfold Interpreter.Forward, Interpreter.forward.
      rewrite Hconv, forward_loop_saturation, Hsat. simpl.
      rewrite (proj2 (in__elem_of final queryFact) (Hsup _ Hin)). reflexivity.
    + rewrite <- Hempty. split; [apply map_eq_nil | intros ->; reflexivity].
Qed.

Lemma base_case_verdict_witness :
  (∀ fuel, Interpreter.Backward (S fuel) kb_basic ["f1"; "f2"] "f1"
           = Some (true, [], None))
  ∧ (∀ fuel, length (Rules kb_basic) < fuel →
       ∃ final usedRules,
         saturation fuel (Rules kb_basic) [0; 1] = Some (final, usedRules)
         ∧ fired (Rules kb_basic) final = []
         ∧ Interpreter.Forward fuel kb_basic ["f1"; "f2"] "f1"
           = Some (true, map Name usedRules, None)
         ∧ (map Name usedRules = [] ↔ fired (Rules kb_basic) [0; 1] = [])).
Proof.
  apply (base_case_verdict kb_basic ["f1"; "f2"] "f1" [0; 1] 0).
  - vm_compute. reflexivity.
  - left.
Defined.

(** ** The trail of backward chaining *)

(** C9.  For every knowledge base and every resolved input, [Backward]
    returns an empty list of rule names.  This includes a verdict
    [true] reached through a rule: the helper then ends with that rule
    appended to its own copy of [usedRules], and [backward] returns its
    own, still empty, variable. *)
Theorem backward_trail_always_empty (e : Interpreter) (names : list string)
    (queryName : string) (trueFacts : list FactPtr) (queryFact : FactPtr)
    (fuel : nat) :
  Interpreter._convertNames e names queryName = inr (trueFacts, queryFact) →
  ∃ call,
    Interpreter._isDerivable (S (S fuel)) e trueFacts queryFact [] = Some call
    ∧ Interpreter.Backward (S (S fuel)) e names queryName
      = Some (returned call, [], None)
    ∧ (returned call = true → queryFact ∉ trueFacts →
       ∃ rule, rule ∈ Rules e ∧ Derivation rule = queryFact
               ∧ local_usedRules call = [rule]).
Proof.
  intros Hconv.
  destruct (Backward_returns _ _ _ _ _ fuel Hconv) as (call & Hcall & Hback).
  exists call. split; [exact Hcall|]. split; [exact Hback|].
  intros Htrue Hout. apply in__false in Hout.
  rewrite Interpreter_isDerivable_returns, Hout in Hcall.
  destruct (List.find (settles trueFacts queryFact) (Rules e)) as [rule|] eqn:Hfind;
    injection Hcall as <-; [|discriminate].
  apply find_some in Hfind as [Hin Hsettles].
  exists rule. split; [apply list_elem_of_In, Hin|]. split; [|reflexivity].
  unfold settles in Hsettles. apply andb_true_iff in Hsettles as [Heq _].
  apply Nat.eqb_eq, Heq.
Qed.

Lemma backward_trail_always_empty_witness :
  ∃ call,
    Interpreter._isDerivable 2 kb_basic [0; 1] 2 [] = Some call
    ∧ Interpreter.Backward 2 kb_basic ["f1"; "f2"] "f3"
      = Some (returned call, [], None)
    ∧ (returned call = true → 2 ∉ [0; 1] →
       ∃ rule, rule ∈ Rules kb_basic ∧ Derivation rule = 2
               ∧ local_usedRules call = [rule]).
Proof.
  apply (backward_trail_always_empty kb_basic ["f1"; "f2"] "f3" [0; 1] 2 0).
  vm_compute. reflexivity.
Defined.

(** ** Duplicates in the working set *)

(** C10.  The test of a round counts one match for every pair of an
    antecedent and an equal entry of the working set.  On the knowledge
    base with R1: [f1, f2] -> f3 and the true-fact names f1, f1, the
    antecedent f1 is counted twice, the count reaches the number of
    antecedents and R1 fires although f2 is not in the working set:
    [Forward] answers that f3 is derived, which it is not from f1
    alone.  [Engine] gives the same verdict. *)
Theorem forward_duplicates_break_set_semantics :
  Interpreter._fromJSONEngine json_basic = inr kb_basic
  ∧ Interpreter._convertNames kb_basic ["f1"; "f1"] "f3" = inr ([0; 0], 2)
  ∧ scanTrueFacts (mkRule "R1" [0; 1] 2) [0; 0] 0 true = (2, true)
  ∧ in_ [0; 0] 1 = false
  ∧ (∀ fuel, Interpreter.Forward (2 + fuel) kb_basic ["f1"; "f1"] "f3"
             = Some (true, ["R1"], None))
  ∧ (∀ fuel, Engine.Forward (2 + fuel) kb_basic ["f1"; "f1"] "f3"
             = Some (true, [], None))
  ∧ ¬ Derivable (Rules kb_basic) [0] 2.
Proof.
  split; [vm_compute; reflexivity|].
  split; [vm_compute; reflexivity|].
  split; [reflexivity|].
  split; [reflexivity|].
  split; [intros fuel; apply Forward_fuel_mono; vm_compute; reflexivity|].
  split; [intros fuel; apply Engine_Forward_fuel_mono; vm_compute; reflexivity|].
  assert (Hsmall : ∀ fact, Derivable (Rules kb_basic) [0] fact → fact = 0).
  { intros fact H. induction H as [fact Hin|rule Hin Hconds IH].
    - apply list_elem_of_singleton in Hin. exact Hin.
    - simpl in Hin. apply list_elem_of_singleton in Hin as ->. simpl in *.
      assert (Hc : 1 ∈ [0; 1]) by (right; left).
      specialize (IH 1 Hc). discriminate. }
  intros H. apply Hsmall in H. discriminate.
Qed.

(** * Further properties of the code *)

(** ** The test of a round on any working set *)

Lemma occurrences_cons (fact head : FactPtr) (rest : list FactPtr) :
  occurrences fact (head :: rest)
  = (if Nat.eqb fact head then 1 else 0) + occurrences fact rest.
Proof. unfold occurrences. simpl. destruct (Nat.eqb fact head); reflexivity. Qed.

Lemma occurrences_in (fact : FactPtr) (facts : list FactPtr) :
  0 < occurrences fact facts ↔ fact ∈ facts.
Proof.
  induction facts as [|head rest IH].
  - rewrite elem_of_nil. unfold occurrences. simpl. lia.
  - rewrite occurrences_cons, elem_of_cons, <- IH.
    destruct (Nat.eqb_spec fact head); split; intros; try lia; tauto.
Qed.

Lemma sum_occurrences_cons (conditionals rest : list FactPtr) (trFact : FactPtr) :
  sum_list_with (fun c => occurrences c (trFact :: rest)) conditionals
  = length (List.filter (fun c => Nat.eqb c trFact) conditionals)
    + sum_list_with (fun c => occurrences c rest) conditionals.
Proof.
  induction conditionals as [|c cs IH]; simpl; [reflexivity|].
  rewrite occurrences_cons, IH. destruct (Nat.eqb c trFact); simpl; lia.
Qed.

Lemma scanTrueFacts_pairs (rule : Rule) (trueFacts : list FactPtr)
    (matches : nat) (derived : bool) :
  in_ trueFacts (Derivation rule) = false →
  fst (scanTrueFacts rule trueFacts matches derived)
  = matches + sum_list_with (fun c => occurrences c trueFacts) (Conditionals rule).
Proof.
  revert matches derived.
  induction trueFacts as [|t rest IH]; intros matches derived Hout.
  - simpl. assert (Hzero : sum_list_with (fun c => occurrences c []) (Conditionals rule) = 0).
    { induction (Conditionals rule) as [|c cs IHc]; simpl; auto. }
    rewrite Hzero. lia.
  - simpl in Hout. simpl. rewrite (Nat.eqb_sym (Derivation rule) t).
    destruct (Nat.eqb t (Derivation rule)); [discriminate|].
    rewrite IH by exact Hout.
    rewrite countMatches_filter, sum_occurrences_cons. lia.
Qed.

(** X1.  What the test of a forward round decides, on any working set:
    a rule fires exactly when its consequent is not in the working set
    and the occurrences of its antecedents in the working set, added up
    over the antecedents, equal the number of antecedents. *)
Theorem fires_counts_occurrences (rule : Rule) (trueFacts : list FactPtr) :
  fires rule trueFacts
  = negb (in_ trueFacts (Derivation rule))
    && Nat.eqb (sum_list_with (fun c => occurrences c trueFacts) (Conditionals rule))
               (length (Conditionals rule)).
Proof.
  unfold fires.
  pose proof (scanTrueFacts_derived rule trueFacts 0 true) as Hd.
  pose proof (scanTrueFacts_pairs rule trueFacts 0 true) as Hm.
  destruct (scanTrueFacts rule trueFacts 0 true) as [matches derived].
  simpl in Hd, Hm. subst derived.
  destruct (in_ trueFacts (Derivation rule)); simpl; [reflexivity|].
  rewrite Hm by reflexivity. reflexivity.
Qed.

Lemma sum_occurrences_lower (conditionals trueFacts : list FactPtr) :
  (∀ c, c ∈ conditionals → c ∈ trueFacts) →
  length conditionals
  ≤ sum_list_with (fun c => occurrences c trueFacts) conditionals
  ∧ ∀ c, c ∈ conditionals → 1 < occurrences c trueFacts →
         length conditionals
         < sum_list_with (fun c => occurrences c trueFacts) conditionals.
Proof.
  induction conditionals as [|c cs IH]; intros Hall.
  - split; [simpl; lia | intros c Hc; by apply elem_of_nil in Hc].
  - assert (Hc : 0 < occurrences c trueFacts) by (apply occurrences_in, Hall; left).
    destruct IH as [IHle IHlt]; [intros x Hx; apply Hall; by right|].
    split; [simpl; lia|].
    intros x [->|Hx]%elem_of_cons Htwice; simpl.
    + lia.
    + specialize (IHlt x Hx Htwice). lia.
Qed.

(** X2.  A true fact that stands twice in the working set disables
    every rule that has it as an antecedent and whose other antecedents
    are all true: the count overshoots and the rule does not fire. *)
Theorem repeated_fact_blocks_rule (rule : Rule) (trueFacts : list FactPtr)
    (c : FactPtr) :
  (∀ a, a ∈ Conditionals rule → a ∈ trueFacts) →
  c ∈ Conditionals rule →
  1 < occurrences c trueFacts →
  fires rule trueFacts = false.
Proof.
  intros Hall Hc Htwice.
  destruct (sum_occurrences_lower _ _ Hall) as [_ Hlt].
  specialize (Hlt c Hc Htwice). unfold fires.
  pose proof (scanTrueFacts_derived rule trueFacts 0 true) as Hd.
  pose proof (scanTrueFacts_pairs rule trueFacts 0 true) as Hm.
  destruct (scanTrueFacts rule trueFacts 0 true) as [matches derived].
  simpl in Hd, Hm. subst derived.
  destruct (in_ trueFacts (Derivation rule)); simpl; [reflexivity|].
  rewrite Hm by reflexivity. apply Nat.eqb_neq. lia.
Qed.

Lemma repeated_fact_blocks_rule_witness :
  fires (mkRule "R" [0] 2) [0; 0] = false.
Proof.
  apply (repeated_fact_blocks_rule (mkRule "R" [0] 2) [0; 0] 0).
  - intros a Ha. simpl in Ha. apply list_elem_of_singleton in Ha as ->. left.
  - left.
  - vm_compute. lia.
Defined.

(** ** What the saturation loop keeps *)

(** A property of the working set and the trail that every round keeps
    holds of the working set on which the loop returns and of the
    returned trail. *)
Lemma forward_loop_invariant (P : list FactPtr → list Rule → Prop)
    (e : Interpreter) (query : FactPtr) :
  (∀ trueFacts usedRules,
     P trueFacts usedRules →
     P (trueFacts ++ map Derivation (fired (Rules e) trueFacts))
       (usedRules ++ fired (Rules e) trueFacts)) →
  ∀ (fuel : nat) (trueFacts : list FactPtr) (usedRules : list Rule)
    (isDerived : bool) (trail : list Rule),
    P trueFacts usedRules →
    Interpreter.forward_loop fuel e trueFacts query usedRules = Some (isDerived, trail) →
    ∃ final, P final trail ∧ fired (Rules e) final = [] ∧ isDerived = in_ final query.
Proof.
  intros Hstep fuel.
  induction fuel as [|fuel IH]; intros trueFacts usedRules isDerived trail HP;
    [discriminate|].
  rewrite forward_loop_round.
  destruct (fired (Rules e) trueFacts) as [|rule others] eqn:Hfired.
  - intros [= <- <-]. exists trueFacts. tauto.
  - apply IH. rewrite <- Hfired. apply Hstep, HP.
Qed.

Lemma filter_submseteq (h : Rule → bool) (rules : list Rule) :
  List.filter h rules ⊆+ rules.
Proof.
  induction rules as [|r rest IH]; simpl; [constructor|].
  destruct (h r); [by apply submseteq_skip | by apply submseteq_cons].
Qed.

Lemma filter_disjoint_submseteq (f g h : Rule → bool) (rules : list Rule) :
  (∀ r, r ∈ rules → f r = true → h r = true ∧ g r = false) →
  (∀ r, r ∈ rules → g r = true → h r = true) →
  List.filter f rules ++ List.filter g rules ⊆+ List.filter h rules.
Proof.
  induction rules as [|r rest IH]; intros Hf Hg; simpl; [constructor|].
  assert (IH' : List.filter f rest ++ List.filter g rest ⊆+ List.filter h rest).
  { apply IH; intros x Hx; [apply Hf | apply Hg]; by right. }
  destruct (f r) eqn:Hfr.
  - destruct (Hf r (list_elem_of_here _ _) Hfr) as [-> ->]. simpl.
    by apply submseteq_skip.
  - destruct (g r) eqn:Hgr.
    + rewrite (Hg r (list_elem_of_here _ _) Hgr).
      rewrite <- Permutation_middle. by apply submseteq_skip.
    + destruct (h r); [by apply submseteq_cons | exact IH'].
Qed.

(** The rules fired so far and the rules whose consequent is still
    missing never outnumber the rules. *)
Lemma trail_submseteq_step (rules : list Rule) (trueFacts : list FactPtr)
    (usedRules : list Rule) :
  usedRules ++ List.filter (fun r => negb (in_ trueFacts (Derivation r))) rules ⊆+ rules →
  (usedRules ++ fired rules trueFacts)
    ++ List.filter
         (fun r => negb (in_ (trueFacts ++ map Derivation (fired rules trueFacts))
                           (Derivation r))) rules
  ⊆+ rules.
Proof.
  intros Hinv. etrans; [|exact Hinv].
  rewrite <- app_assoc. apply submseteq_app; [reflexivity|].
  unfold fired at 1. apply filter_disjoint_submseteq.
  - intros r Hin Hr. split.
    + rewrite (fires_not_derived _ _ Hr). reflexivity.
    + apply negb_false_iff. rewrite in__app.
      apply orb_true_iff. right. apply in__elem_of.
      apply (list_elem_of_fmap_2 Derivation). apply fired_fires. tauto.
  - intros r _ Hr. apply negb_true_iff in Hr. rewrite in__app in Hr.
    apply orb_false_iff in Hr as [Hr _]. rewrite Hr. reflexivity.
Qed.

Lemma forward_trail_submseteq (e : Interpreter) (trueFacts : list FactPtr)
    (query : FactPtr) (fuel : nat) (isDerived : bool) (trail : list Rule) :
  Interpreter.forward fuel e trueFacts query = Some (isDerived, trail) →
  trail ⊆+ Rules e.
Proof.
  intros Hloop. unfold Interpreter.forward in Hloop.
  destruct (forward_loop_invariant
              (fun tf used =>
                 used ++ List.filter (fun r => negb (in_ tf (Derivation r))) (Rules e)
                 ⊆+ Rules e)
              e query (trail_submseteq_step (Rules e))
              fuel trueFacts [] isDerived trail) as (final & Hfinal & _).
  - simpl. apply filter_submseteq.
  - exact Hloop.
  - etrans; [|exact Hfinal]. apply submseteq_inserts_r. reflexivity.
Qed.

(** X3.  [Forward] returns on every knowledge base and every input,
    loaded or not, resolved or not, within one round more than there
    are rules.  The trail it returns holds no rule name more often than
    the rules carry it: a rule is recorded at most once. *)
Theorem Forward_returns_bounded_trail (e : Interpreter) (names : list string)
    (queryName : string) (fuel : nat) :
  length (Rules e) < fuel →
  ∃ isDerived trail err,
    Interpreter.Forward fuel e names queryName = Some (isDerived, trail, err)
    ∧ trail ⊆+ map Name (Rules e)
    ∧ length trail ≤ length (Rules e).
Proof.
  intros Hfuel. unfold Interpreter.Forward.
  destruct (Interpreter._convertNames e names queryName) as [err|[trueFacts queryFact]].
  - exists false, [], (Some err). split; [reflexivity|].
    split; [apply submseteq_nil_l | simpl; lia].
  - destruct (forward_loop_total e trueFacts queryFact [] fuel Hfuel)
      as [[isDerived usedRules] Hloop].
    fold (Interpreter.forward fuel e trueFacts queryFact) in Hloop.
    rewrite Hloop. exists isDerived, (map Name usedRules), None.
    pose proof (forward_trail_submseteq _ _ _ _ _ _ Hloop) as Hsub.
    split; [reflexivity|]. split.
    + apply (fmap_submseteq Name), Hsub.
    + rewrite length_map. apply submseteq_length, Hsub.
Qed.

Lemma Forward_returns_bounded_trail_witness :
  ∃ isDerived trail err,
    Interpreter.Forward 3 kb_chained ["a"] "c" = Some (isDerived, trail, err)
    ∧ trail ⊆+ map Name (Rules kb_chained)
    ∧ length trail ≤ length (Rules kb_chained).
Proof.
  apply (Forward_returns_bounded_trail kb_chained ["a"] "c" 3). simpl. lia.
Defined.

(** X4.  The trail of [forward] accounts for its verdict: the verdict
    is [true] exactly when the query is one of the true facts passed in
    or the consequent of a rule of the returned trail. *)
Theorem forward_verdict_explained (e : Interpreter) (trueFacts : list FactPtr)
    (query : FactPtr) (fuel : nat) :
  length (Rules e) < fuel →
  ∃ isDerived trail,
    Interpreter.forward fuel e trueFacts query = Some (isDerived, trail)
    ∧ (isDerived = true
       ↔ query ∈ trueFacts ∨ ∃ rule, rule ∈ trail ∧ Derivation rule = query).
Proof.
  intros Hfuel.
  destruct (forward_loop_total e trueFacts query [] fuel Hfuel)
    as [[isDerived trail] Hloop].
  exists isDerived, trail. split; [exact Hloop|].
  set (P := fun (tf : list FactPtr) (used : list Rule) =>
              ∀ x, x ∈ tf ↔ x ∈ trueFacts ∨ ∃ rule, rule ∈ used ∧ Derivation rule = x).
  assert (Hstep : ∀ tf used, P tf used →
            P (tf ++ map Derivation (fired (Rules e) tf)) (used ++ fired (Rules e) tf)).
  { intros tf used HP x. rewrite elem_of_app, (HP x), list_elem_of_fmap.
    split.
    - intros [[Hin|(rule & Hrule & Hx)]|(rule & -> & Hrule)].
      + by left.
      + right. exists rule. rewrite elem_of_app. tauto.
      + right. exists rule. rewrite elem_of_app. tauto.
    - intros [Hin|(rule & [Hrule|Hrule]%elem_of_app & Hx)].
      + tauto.
      + left. right. by exists rule.
      + right. by exists rule. }
  assert (Hstart : P trueFacts []).
  { intros x. split; [tauto|].
    intros [Hin|(rule & Hrule & _)]; [exact Hin | by apply elem_of_nil in Hrule]. }
  destruct (forward_loop_invariant P e query Hstep fuel trueFacts [] isDerived trail
              Hstart Hloop) as (final & Hfinal & _ & ->).
  rewrite in__elem_of. apply Hfinal.
Qed.

Lemma forward_verdict_explained_witness :
  ∃ isDerived trail,
    Interpreter.forward 3 kb_chained [0] 2 = Some (isDerived, trail)
    ∧ (isDerived = true
       ↔ 2 ∈ [0] ∨ ∃ rule, rule ∈ trail ∧ Derivation rule = 2).
Proof.
  apply (forward_verdict_explained kb_chained [0] 2 3). simpl. lia.
Defined.

(** X5.  The [forward] of [Engine] decides what the reference [forward]
    decides, round for round, and returns an empty trail whatever rules
    it fired. *)
Theorem Engine_forward_same_verdict (e : Interpreter) (trueFacts : list FactPtr)
    (query : FactPtr) (fuel : nat) :
  Engine.forward fuel e trueFacts query
  = match Interpreter.forward fuel e trueFacts query with
    | Some (isDerived, _) => Some (isDerived, [])
    | None => None
    end.
Proof.
  unfold Interpreter.forward.
  assert (Hany : ∀ usedRules,
            Engine.forward fuel e trueFacts query
            = match Interpreter.forward_loop fuel e trueFacts query usedRules with
              | Some (isDerived, _) => Some (isDerived, [])
              | None => None
              end); [|apply Hany].
  revert trueFacts.
  induction fuel as [|fuel IH]; intros trueFacts usedRules; [reflexivity|].
  rewrite Engine_forward_round, forward_loop_round.
  destruct (fired (Rules e) trueFacts) as [|rule others]; [reflexivity|].
  apply IH.
Qed.

(** ** Forward chaining and derivability *)

Lemma fired_consequents_NoDup (rules : list Rule) (trueFacts : list FactPtr) :
  NoDup (map Derivation rules) → NoDup (map Derivation (fired rules trueFacts)).
Proof.
  unfold fired. induction rules as [|r rest IH]; simpl; [tauto|].
  intros [Hfresh Hrest]%NoDup_cons. specialize (IH Hrest).
  destruct (fires r trueFacts); simpl; [|exact IH].
  apply NoDup_cons. split; [|exact IH].
  intros (x & Heq & Hx)%list_elem_of_fmap. apply Hfresh.
  rewrite Heq. apply list_elem_of_fmap_2.
  apply list_elem_of_In in Hx. apply filter_In in Hx as [Hx _].
  apply list_elem_of_In, Hx.
Qed.

Lemma round_NoDup (rules : list Rule) (trueFacts : list FactPtr) :
  NoDup trueFacts → NoDup (map Derivation rules) →
  NoDup (trueFacts ++ map Derivation (fired rules trueFacts)).
Proof.
  intros Hfacts Hrules. apply NoDup_app. split; [exact Hfacts|]. split.
  - intros x Hx (rule & -> & [_ Hfires]%fired_fires)%list_elem_of_fmap.
    apply fires_not_derived, in__false in Hfires. tauto.
  - apply fired_consequents_NoDup, Hrules.
Qed.

Lemma fired_nil (rules : list Rule) (trueFacts : list FactPtr) (rule : Rule) :
  fired rules trueFacts = [] → rule ∈ rules → fires rule trueFacts = false.
Proof.
  intros Hnone Hrule. destruct (fires rule trueFacts) eqn:Hfires; [|reflexivity].
  assert (Hin : rule ∈ fired rules trueFacts) by (apply fired_fires; tauto).
  rewrite Hnone in Hin. by apply elem_of_nil in Hin.
Qed.

Lemma forallb_in (trueFacts conditionals : list FactPtr) :
  forallb (in_ trueFacts) conditionals = true
  ↔ ∀ c, c ∈ conditionals → c ∈ trueFacts.
Proof.
  rewrite forallb_forall. split; intros H c Hc.
  - apply in__elem_of, H, list_elem_of_In, Hc.
  - apply in__elem_of, H, list_elem_of_In, Hc.
Qed.

(** When the true facts passed in are pairwise distinct and no two rules
    have the same consequent, the working set never holds a fact twice
    and [forward] decides derivability. *)
Lemma forward_decides_derivability (e : Interpreter) (trueFacts : list FactPtr)
    (query : FactPtr) (fuel : nat) :
  NoDup trueFacts →
  NoDup (map Derivation (Rules e)) →
  length (Rules e) < fuel →
  ∃ isDerived trail,
    Interpreter.forward fuel e trueFacts query = Some (isDerived, trail)
    ∧ (isDerived = true ↔ Derivable (Rules e) trueFacts query).
Proof.
  intros Hfacts Hrules Hfuel.
  destruct (forward_loop_total e trueFacts query [] fuel Hfuel)
    as [[isDerived trail] Hloop].
  exists isDerived, trail. split; [exact Hloop|].
  set (P := fun (tf : list FactPtr) (used : list Rule) =>
              NoDup tf ∧ (∀ x, x ∈ trueFacts → x ∈ tf)
              ∧ ∀ x, x ∈ tf → Derivable (Rules e) trueFacts x).
  assert (Hstep : ∀ tf used, P tf used →
            P (tf ++ map Derivation (fired (Rules e) tf)) (used ++ fired (Rules e) tf)).
  { intros tf used (Hnodup & Hsup & Hsound). split; [|split].
    - apply round_NoDup; assumption.
    - intros x Hx. apply elem_of_app. left. apply Hsup, Hx.
    - intros x [Hx|(rule & -> & [Hrule Hfires]%fired_fires)%list_elem_of_fmap]%elem_of_app.
      + apply Hsound, Hx.
      + apply Derivable_rule; [exact Hrule|].
        rewrite (fires_set_semantics _ _ Hnodup) in Hfires.
        apply andb_true_iff in Hfires as [_ Hall].
        intros c Hc. apply Hsound. revert c Hc. apply forallb_in, Hall. }
  assert (Hstart : P trueFacts []).
  { split; [exact Hfacts|]. split; [tauto|]. intros x Hx. by apply Derivable_given. }
  destruct (forward_loop_invariant P e query Hstep fuel trueFacts [] isDerived trail
              Hstart Hloop) as (final & (Hnodup & Hsup & Hsound) & Hnone & ->).
  assert (Hcomplete : ∀ x, Derivable (Rules e) trueFacts x → x ∈ final).
  { intros x Hder. induction Hder as [fact Hin|rule Hrule Hconds IH].
    - apply Hsup, Hin.
    - pose proof (fired_nil _ _ _ Hnone Hrule) as Hquiet.
      rewrite (fires_set_semantics _ _ Hnodup) in Hquiet.
      apply andb_false_iff in Hquiet as [Hin|Hmiss].
      + apply negb_false_iff, in__elem_of in Hin. exact Hin.
      + assert (Hall : forallb (in_ final) (Conditionals rule) = true)
          by (apply forallb_in, IH).
        congruence. }
  rewrite in__elem_of. split; [apply Hsound | apply Hcomplete].
Qed.

(** ** Backward chaining and derivability *)

Lemma backward_sound (e : Interpreter) (trueFacts : list FactPtr)
    (query : FactPtr) (fuel : nat) :
  ∃ isDerived,
    Interpreter.backward (S (S fuel)) e trueFacts query = Some (isDerived, [])
    ∧ (isDerived = true → Derivable (Rules e) trueFacts query).
Proof.
  unfold Interpreter.backward.
  destruct (Interpreter_isDerivable_verdict fuel e trueFacts query [])
    as (call & -> & Hiff).
  exists (returned call). split; [reflexivity|].
  intros [Hin|(rule & Hrule & <- & Hconds)]%Hiff.
  - by apply Derivable_given.
  - apply Derivable_rule; [exact Hrule|].
    intros c Hc. apply Derivable_given, Hconds, Hc.
Qed.

(** X6.  [Backward] is sound on every knowledge base: a verdict [true]
    means that the query can be derived from the resolved true facts by
    the rules. *)
Theorem Backward_sound (e : Interpreter) (names : list string)
    (queryName : string) (trueFacts : list FactPtr) (queryFact : FactPtr)
    (fuel : nat) :
  Interpreter._convertNames e names queryName = inr (trueFacts, queryFact) →
  ∃ isDerived,
    Interpreter.Backward (S (S fuel)) e names queryName = Some (isDerived, [], None)
    ∧ (isDerived = true → Derivable (Rules e) trueFacts queryFact).
Proof.
  intros Hconv. unfold Interpreter.Backward. rewrite Hconv.
  destruct (backward_sound e trueFacts queryFact fuel) as (isDerived & -> & Hsound).
  exists isDerived. split; [reflexivity | exact Hsound].
Qed.

Lemma Backward_sound_witness :
  ∃ isDerived,
    Interpreter.Backward 2 kb_basic ["f1"; "f2"] "f3" = Some (isDerived, [], None)
    ∧ (isDerived = true → Derivable (Rules kb_basic) [0; 1] 2).
Proof.
  apply (Backward_sound kb_basic ["f1"; "f2"] "f3" [0; 1] 2 0).
  vm_compute. reflexivity.
Defined.

(** X7.  Backward chaining never proves more than forward chaining:
    when the resolved true facts are pairwise distinct and no two rules
    have the same consequent, every query that [Backward] answers with
    [true] is answered with [true] by [Forward]. *)
Theorem Backward_implies_Forward (e : Interpreter) (names : list string)
    (queryName : string) (trueFacts : list FactPtr) (queryFact : FactPtr)
    (depth rounds : nat) :
  Interpreter._convertNames e names queryName = inr (trueFacts, queryFact) →
  NoDup trueFacts →
  NoDup (map Derivation (Rules e)) →
  length (Rules e) < rounds →
  Interpreter.Backward (S (S depth)) e names queryName = Some (true, [], None) →
  ∃ trail, Interpreter.Forward rounds e names queryName = Some (true, trail, None).
Proof.
  intros Hconv Hfacts Hrules Hrounds Hback.
  destruct (backward_sound e trueFacts queryFact depth) as (isDerived & Hback' & Hsound).
  unfold Interpreter.Backward in Hback. rewrite Hconv, Hback' in Hback.
  injection Hback as ->.
  destruct (forward_decides_derivability e trueFacts queryFact rounds Hfacts Hrules Hrounds)
    as (isDerived & trail & Hforward & Hiff).
  unfold Interpreter.Forward. rewrite Hconv, Hforward.
  rewrite (proj2 Hiff (Hsound eq_refl)). by eexists.
Qed.

Lemma Backward_implies_Forward_witness :
  ∃ trail, Interpreter.Forward 2 kb_basic ["f1"; "f2"] "f3" = Some (true, trail, None).
Proof.
  apply (Backward_implies_Forward kb_basic ["f1"; "f2"] "f3" [0; 1] 2 0 2).
  - vm_compute. reflexivity.
  - apply NoDup_cons. split; [|apply NoDup_singleton].
    intros H%list_elem_of_singleton. discriminate.
  - simpl. apply NoDup_singleton.
  - simpl. lia.
  - vm_compute. reflexivity.
Defined.

(** ** The backward chaining of [Engine] *)

Lemma countDerivable_ext (check check' : FactPtr → option bool)
    (conditionals : list FactPtr) (derivableCount : nat) :
  (∀ c, c ∈ conditionals → check c = check' c) →
  countDerivable check conditionals derivableCount
  = countDerivable check' conditionals derivableCount.
Proof.
  revert derivableCount.
  induction conditionals as [|c rest IH]; intros derivableCount Hext; simpl;
    [reflexivity|].
  rewrite <- (Hext c) by left.
  destruct (check c) as [[|]|]; [| |reflexivity]; apply IH;
    intros x Hx; apply Hext; by right.
Qed.

(** [tryRules] consults [check] only on the antecedents of rules whose
    consequent is the goal. *)
Lemma tryRules_ext (check check' : FactPtr → option bool) (rules : list Rule)
    (trueFacts : list FactPtr) (fact : FactPtr) (usedRules : list Rule) :
  (∀ rule c, rule ∈ rules → Derivation rule = fact → c ∈ Conditionals rule →
             check c = check' c) →
  tryRules check rules trueFacts fact usedRules
  = tryRules check' rules trueFacts fact usedRules.
Proof.
  induction rules as [|rule rest IH]; intros Hext; simpl; [reflexivity|].
  assert (IH' : tryRules check rest trueFacts fact usedRules
                = tryRules check' rest trueFacts fact usedRules).
  { apply IH. intros r c Hr. apply Hext. by right. }
  destruct (Nat.eqb_spec (Derivation rule) fact) as [Heq|_]; [|exact IH'].
  rewrite (countDerivable_ext check check').
  - destruct (countDerivable check' (Conditionals rule) 0) as [n|]; [|reflexivity].
    destruct (Nat.eqb n (length (Conditionals rule))); [reflexivity | exact IH'].
  - intros c Hc. apply (Hext rule c); [left | exact Heq | exact Hc].
Qed.

(** X8.  Whenever the [backward] of [Engine] returns, it returns the
    verdict of the reference [backward], with an empty list of rules. *)
Theorem Engine_backward_agrees (e : Interpreter) (trueFacts : list FactPtr)
    (query : FactPtr) (fuel : nat) (isDerived : bool) (trail : list Rule) :
  Engine.backward fuel e trueFacts query = Some (isDerived, trail) →
  trail = [] ∧ Interpreter.backward (S (S fuel)) e trueFacts query = Some (isDerived, []).
Proof.
  unfold Engine.backward, Interpreter.backward.
  destruct (Engine._isDerivable fuel e trueFacts query []) as [call|] eqn:Hcall;
    [|discriminate].
  intros [= <- <-]. split; [reflexivity|].
  rewrite (Engine_isDerivable_agrees _ _ _ _ _ _ Hcall). reflexivity.
Qed.

Lemma Engine_backward_agrees_witness :
  ([] : list Rule) = [] ∧ Interpreter.backward 5 kb_basic [0; 1] 2 = Some (true, []).
Proof.
  apply (Engine_backward_agrees kb_basic [0; 1] 2 3 true []).
  vm_compute. reflexivity.
Defined.

Lemma Engine_isDerivable_ranked (e : Interpreter) (rank : FactPtr → nat)
    (trueFacts : list FactPtr) (usedRules : list Rule) :
  (∀ rule c, rule ∈ Rules e → c ∈ Conditionals rule →
             rank c < rank (Derivation rule)) →
  ∀ (fuel : nat) (fact : FactPtr),
    rank fact < fuel →
    Engine._isDerivable fuel e trueFacts fact usedRules
    = Interpreter._isDerivable 2 e trueFacts fact usedRules.
Proof.
  intros Hrank fuel.
  induction fuel as [|fuel IH]; intros fact Hfuel; [lia|].
  rewrite Engine_isDerivable_S, (Interpreter_isDerivable_returns 0).
  destruct (in_ trueFacts fact) eqn:Hfact; [reflexivity|].
  rewrite <- (tryRules_find (fun c => Some (in_ trueFacts c))) by reflexivity.
  apply tryRules_ext. intros rule c Hrule Heq Hc.
  pose proof (Hrank rule c Hrule Hc) as Hlt. rewrite Heq in Hlt.
  rewrite IH by lia. rewrite (Interpreter_isDerivable_returns 0).
  destruct (in_ trueFacts c); [reflexivity|].
  destruct (List.find (settles trueFacts c) (Rules e)); simpl; reflexivity.
Qed.

(** X9.  On a knowledge base without cycles, that is, when the facts
    can be ranked so that every antecedent of a rule ranks below its
    consequent, the [backward] of [Engine] returns as soon as the
    recursion may go deeper than the rank of the query, and it returns
    what the reference [backward] returns. *)
Theorem Engine_backward_returns_without_cycle (e : Interpreter)
    (rank : FactPtr → nat) (trueFacts : list FactPtr) (query : FactPtr)
    (fuel : nat) :
  (∀ rule c, rule ∈ Rules e → c ∈ Conditionals rule →
             rank c < rank (Derivation rule)) →
  rank query < fuel →
  ∃ isDerived,
    Engine.backward fuel e trueFacts query = Some (isDerived, [])
    ∧ Interpreter.backward 2 e trueFacts query = Some (isDerived, []).
Proof.
  intros Hrank Hfuel. unfold Engine.backward, Interpreter.backward.
  rewrite (Engine_isDerivable_ranked e rank trueFacts [] Hrank fuel query Hfuel).
  rewrite (Interpreter_isDerivable_returns 0). by eexists.
Qed.

Lemma Engine_backward_returns_without_cycle_witness :
  ∃ isDerived,
    Engine.backward 3 kb_chained [0] 2 = Some (isDerived, [])
    ∧ Interpreter.backward 2 kb_chained [0] 2 = Some (isDerived, []).
Proof.
  apply (Engine_backward_returns_without_cycle kb_chained (fun fact => fact) [0] 2 3).
  - intros rule c Hrule Hc. simpl in Hrule.
    apply elem_of_cons in Hrule as [->|Hrule].
    + simpl in Hc. apply list_elem_of_singleton in Hc as ->. simpl. lia.
    + apply list_elem_of_singleton in Hrule as ->.
      simpl in Hc. apply list_elem_of_singleton in Hc as ->. simpl. lia.
  - lia.
Defined.

(** ** Name resolution, in full *)

Lemma resolved_functional (facts : gmap string FactPtr) (names : list string)
    (ptrs ptrs' : list FactPtr) :
  Forall2 (fun name ptr => facts !! name = Some ptr) names ptrs →
  Forall2 (fun name ptr => facts !! name = Some ptr) names ptrs' →
  ptrs = ptrs'.
Proof.
  intros H. revert ptrs'.
  induction H as [|n p ns ps Hn _ IH]; intros ptrs' H'; inversion H'; subst;
    [reflexivity|].
  f_equal; [congruence | by apply IH].
Qed.

Lemma resolved_firstUnknown (facts : gmap string FactPtr) (names : list string)
    (ptrs : list FactPtr) :
  Forall2 (fun name ptr => facts !! name = Some ptr) names ptrs →
  firstUnknown facts names = None.
Proof.
  intros H. apply firstUnknown_None. intros name Hin.
  induction H as [|n p ns ps Hn _ IH]; [by apply elem_of_nil in Hin|].
  apply elem_of_cons in Hin as [->|Hin]; [by eexists | by apply IH].
Qed.

(** X10.  [_convertNames] succeeds exactly when every true-fact name
    and the query name are keys of the fact map, and it then returns
    the facts of the names position by position, in the order given and
    with repetitions kept, and the fact of the query. *)
Theorem convertNames_success (e : Interpreter) (names : list string)
    (queryName : string) (trueFacts : list FactPtr) (queryFact : FactPtr) :
  Interpreter._convertNames e names queryName = inr (trueFacts, queryFact)
  ↔ Forall2 (fun name ptr => Facts e !! name = Some ptr) names trueFacts
    ∧ Facts e !! queryName = Some queryFact.
Proof.
  split; [intros H; apply convertNames_inr in H; tauto|].
  intros [Hall Hq].
  destruct (convertNames_resolved e names queryName) as (tf & qf & Heq & Hall' & Hq').
  - rewrite firstUnknown_app, (resolved_firstUnknown _ _ _ Hall).
    unfold unknown. rewrite Hq. by rewrite bool_decide_eq_false_2.
  - rewrite Heq. rewrite (resolved_functional _ _ _ _ Hall' Hall). congruence.
Qed.

Lemma convertLoop_shown (facts : gmap string FactPtr) (shown shown' : string → string)
    (names : list string) (trueFacts result : list FactPtr) :
  convertLoop facts shown names trueFacts = inr result
  ↔ convertLoop facts shown' names trueFacts = inr result.
Proof.
  revert trueFacts.
  induction names as [|n rest IH]; intros trueFacts; simpl; [tauto|].
  destruct (facts !! n); [apply IH | split; discriminate].
Qed.

(** X11.  The [_convertNames] of [Engine] resolves exactly the inputs
    the reference resolves, to the same facts.  Its error differs: for
    a true-fact name that is not registered the message shows the whole
    list of true-fact names; for the query name it shows that name. *)
Theorem Engine_convertNames_compared (e : Interpreter) (names : list string)
    (queryName : string) :
  (∀ resolved,
     Engine._convertNames e names queryName = inr resolved
     ↔ Interpreter._convertNames e names queryName = inr resolved)
  ∧ (∀ name,
       firstUnknown (Facts e) names = Some name →
       Engine._convertNames e names queryName
       = inl ("Unknown fact: " +:+ showNames names))
  ∧ (firstUnknown (Facts e) names = None →
     Facts e !! queryName = None →
     Engine._convertNames e names queryName = inl ("Unknown fact: " +:+ queryName)).
Proof.
  split; [|split].
  - intros resolved. unfold Engine._convertNames, Interpreter._convertNames.
    pose proof (convertLoop_shown (Facts e) (fun _ => showNames names)
                  (fun trFactName => trFactName) names []) as Hsame.
    destruct (convertLoop (Facts e) (fun _ => showNames names) names []) as [err|tf];
      destruct (convertLoop (Facts e) (fun trFactName => trFactName) names [])
        as [err'|tf'].
    + split; discriminate.
    + pose proof (proj2 (Hsame tf') eq_refl) as Hbad. discriminate Hbad.
    + pose proof (proj1 (Hsame tf) eq_refl) as Hbad. discriminate Hbad.
    + assert (tf = tf') as <-.
      { pose proof (proj1 (Hsame tf) eq_refl) as Heq. congruence. }
      reflexivity.
  - intros name Hname.
    rewrite (Engine_convertNames_unknown e names queryName name).
    + rewrite Hname. reflexivity.
    + rewrite firstUnknown_app, Hname. reflexivity.
  - intros Hnames Hquery.
    rewrite (Engine_convertNames_unknown e names queryName queryName).
    + rewrite Hnames. reflexivity.
    + rewrite firstUnknown_app, Hnames. unfold unknown.
      by rewrite bool_decide_eq_true_2.
Qed.

Lemma Engine_convertNames_compared_witness :
  Engine._convertNames kb_basic ["f1"; "f9"] "f3"
  = inl ("Unknown fact: " +:+ showNames ["f1"; "f9"]).
Proof.
  apply (proj1 (proj2 (Engine_convertNames_compared kb_basic ["f1"; "f9"] "f3")) "f9").
  vm_compute. reflexivity.
Defined.

(** ** The reference loader, in full *)

Lemma registerFacts_lookup (facts : list Fact) (ptr : FactPtr)
    (known result : gmap string FactPtr) :
  Interpreter.registerFacts facts ptr known = inr result →
  ∀ (name : string) (p : FactPtr),
    result !! name = Some p
    ↔ known !! name = Some p
      ∨ ∃ i fact, facts !! i = Some fact ∧ Fact_Name fact = name ∧ p = ptr + i.
Proof.
  revert ptr known.
  induction facts as [|fact rest IH]; intros ptr known;
    cbn [Interpreter.registerFacts].
  - intros [= <-] name p. split; [tauto|].
    intros [H|(i & f & Hi & _)]; [exact H | discriminate].
  - destruct (known !! Fact_Name fact) eqn:Hfresh; [discriminate|].
    intros H name p. rewrite (IH _ _ H name p). clear IH H.
    rewrite lookup_insert. split.
    + intros [Hins|(i & f & Hi & Hname & ->)].
      * case_decide as Hcase.
        -- injection Hins as <-. right. exists 0, fact. simpl.
           split; [reflexivity|]. split; [exact Hcase | lia].
        -- by left.
      * right. exists (S i), f. simpl. split; [exact Hi|]. split; [exact Hname | lia].
    + intros [Hknown|(i & f & Hi & Hname & ->)].
      * left. case_decide as Hcase; [|exact Hknown].
        unfold FactPtr in *. congruence.
      * destruct i as [|i]; simpl in Hi.
        -- injection Hi as <-. left. rewrite decide_True by exact Hname.
           f_equal. lia.
        -- right. exists i, f. split; [exact Hi|]. split; [exact Hname | lia].
Qed.

Lemma registerFacts_inr (facts : list Fact) (ptr : FactPtr)
    (known : gmap string FactPtr) :
  (∃ result, Interpreter.registerFacts facts ptr known = inr result)
  ↔ NoDup (map Fact_Name facts)
    ∧ ∀ fact, fact ∈ facts → known !! Fact_Name fact = None.
Proof.
  revert ptr known.
  induction facts as [|fact rest IH]; intros ptr known;
    cbn [Interpreter.registerFacts].
  - split; [intros _; split; [constructor|] | intros _; by eexists].
    intros f Hf. by apply elem_of_nil in Hf.
  - destruct (known !! Fact_Name fact) eqn:Hfresh.
    + split; [intros [r Hr]; discriminate|].
      intros [_ Hall]. specialize (Hall fact (list_elem_of_here _ _)). congruence.
    + rewrite IH. split.
      * intros [Hnodup Hall]. split; [apply NoDup_cons; split; [|exact Hnodup]|].
        -- intros (f & Heq & Hf)%list_elem_of_fmap.
           specialize (Hall f Hf). rewrite <- Heq, lookup_insert_eq in Hall.
           discriminate.
        -- intros f [->|Hf]%elem_of_cons; [exact Hfresh|].
           specialize (Hall f Hf).
           rewrite lookup_insert in Hall. case_decide; [discriminate | exact Hall].
      * intros [[Hfirst Hnodup]%NoDup_cons Hall]. split; [exact Hnodup|].
        intros f Hf. rewrite lookup_insert_ne; [apply Hall; by right|].
        intros Heq. apply Hfirst. rewrite Heq. by apply list_elem_of_fmap_2.
Qed.

Lemma resolveConditionals_inr (facts : gmap string FactPtr) (jrule : JSONRule)
    (names : list string) (conditionals result : list FactPtr) :
  Interpreter.resolveConditionals facts jrule names conditionals = inr result
  ↔ ∃ ptrs, result = conditionals ++ ptrs
            ∧ Forall2 (fun name ptr => facts !! name = Some ptr) names ptrs.
Proof.
  revert conditionals.
  induction names as [|n rest IH]; intros conditionals; simpl.
  - split.
    + intros [= <-]. exists []. rewrite app_nil_r. split; [reflexivity | constructor].
    + intros (ptrs & -> & Hall). inversion Hall. by rewrite app_nil_r.
  - destruct (facts !! n) as [p|] eqn:Hn.
    + rewrite IH. split.
      * intros (ptrs & -> & Hall). exists (p :: ptrs).
        rewrite <- app_assoc. split; [reflexivity | by constructor].
      * intros (ptrs & -> & Hall). inversion Hall as [|? p' ? ptrs' Hp Hrest]; subst.
        exists ptrs'. rewrite <- app_assoc.
        replace p' with p by congruence. tauto.
    + split; [discriminate|].
      intros (ptrs & _ & Hall). inversion Hall; congruence.
Qed.

Lemma buildRules_inr (facts : gmap string FactPtr) (jrules : list JSONRule)
    (rules result : list Rule) :
  Interpreter.buildRules facts ∅ jrules rules = inr result
  ↔ ∃ new, result = rules ++ new ∧ Forall2 (translates facts) jrules new.
Proof.
  revert rules.
  induction jrules as [|jrule rest IH]; intros rules; simpl.
  - split.
    + intros [= <-]. exists []. rewrite app_nil_r. split; [reflexivity | constructor].
    + intros (new & -> & Hall). inversion Hall. by rewrite app_nil_r.
  - rewrite bool_decide_eq_false_2 by apply not_elem_of_empty.
    destruct (Interpreter.resolveConditionals facts jrule
                (JSONRule_Conditionals jrule) []) as [err|conds] eqn:Hconds.
    + split; [discriminate|].
      intros (new & _ & Hall).
      inversion Hall as [|? rule ? new' (_ & Hc & _) _]; subst.
      assert (Hok : Interpreter.resolveConditionals facts jrule
                      (JSONRule_Conditionals jrule) [] = inr (Conditionals rule))
        by (apply resolveConditionals_inr; by eexists).
      congruence.
    + apply resolveConditionals_inr in Hconds as (ptrs & -> & Hptrs). simpl.
      destruct (facts !! JSONRule_Derivation jrule) as [d|] eqn:Hd.
      * rewrite IH. split.
        -- intros (new & -> & Hall).
           exists (mkRule (JSONRule_Name jrule) ptrs d :: new).
           rewrite <- app_assoc. split; [reflexivity|].
           constructor; [|exact Hall]. by split.
        -- intros (new & -> & Hall).
           inversion Hall as [|? rule ? new' (Hname & Hc & Hder) Hrest]; subst.
           exists new'. rewrite <- app_assoc. split; [|exact Hrest].
           destruct rule as [rn rc rd]. simpl in *.
           rewrite (resolved_functional _ _ _ _ Hptrs Hc). congruence.
      * split; [discriminate|].
        intros (new & _ & Hall).
        inversion Hall as [|? rule ? new' (_ & _ & Hder) _]; subst. congruence.
Qed.

Lemma fromJSONEngine_inr (jsonEngine : JSONInterpreter) (e : Interpreter) :
  Interpreter._fromJSONEngine jsonEngine = inr e
  ↔ Interpreter.registerFacts (JSON_Facts jsonEngine) 0 ∅ = inr (Facts e)
    ∧ Interpreter.buildRules (Facts e) ∅ (JSON_Rules jsonEngine) [] = inr (Rules e).
Proof.
  unfold Interpreter._fromJSONEngine.
  destruct (Interpreter.registerFacts (JSON_Facts jsonEngine) 0 ∅) as [err|facts].
  - split; [discriminate | intros [H _]; discriminate].
  - destruct (Interpreter.buildRules facts ∅ (JSON_Rules jsonEngine) [])
      as [err|rules] eqn:Hrules.
    + split; [discriminate|]. intros [[= ->] H]. congruence.
    + split.
      * intros [= <-]. simpl. tauto.
      * intros [[= ->] H]. destruct e as [ef er]. simpl in *.
        rewrite Hrules in H. congruence.
Qed.

Lemma loaded_lookup (jsonEngine : JSONInterpreter) (e : Interpreter)
    (name : string) (p : FactPtr) :
  Interpreter._fromJSONEngine jsonEngine = inr e →
  (Facts e !! name = Some p
   ↔ ∃ fact, JSON_Facts jsonEngine !! p = Some fact ∧ Fact_Name fact = name).
Proof.
  intros [Hfacts _]%fromJSONEngine_inr.
  rewrite (registerFacts_lookup _ _ _ _ Hfacts name p), lookup_empty.
  split.
  - intros [H|(i & fact & Hi & Hname & ->)]; [discriminate|]. by exists fact.
  - intros (fact & Hp & Hname). right. by exists p, fact.
Qed.

(** X12.  In a loaded knowledge base the fact map and the description
    agree.  Every listed fact can be looked up by its name and is mapped
    to its position in the description, which stands for its address;
    and every entry of the fact map leads to a listed fact of that
    name. *)
Theorem loaded_fact_lookup (jsonEngine : JSONInterpreter) (e : Interpreter) :
  Interpreter._fromJSONEngine jsonEngine = inr e →
  (∀ p fact, JSON_Facts jsonEngine !! p = Some fact →
             Facts e !! Fact_Name fact = Some p)
  ∧ (∀ name p, Facts e !! name = Some p →
               ∃ fact, JSON_Facts jsonEngine !! p = Some fact
                       ∧ Fact_Name fact = name).
Proof.
  intros Hload. split.
  - intros p fact Hp. apply (loaded_lookup _ _ _ _ Hload). by exists fact.
  - intros name p Hname. apply (loaded_lookup _ _ _ _ Hload), Hname.
Qed.

Lemma loaded_fact_lookup_witness :
  (∀ p fact, JSON_Facts json_basic !! p = Some fact →
             Facts kb_basic !! Fact_Name fact = Some p)
  ∧ (∀ name p, Facts kb_basic !! name = Some p →
               ∃ fact, JSON_Facts json_basic !! p = Some fact
                       ∧ Fact_Name fact = name).
Proof.
  apply (loaded_fact_lookup json_basic kb_basic). vm_compute. reflexivity.
Defined.

Lemma loaded_key (jsonEngine : JSONInterpreter) (e : Interpreter) (name : string) :
  Interpreter._fromJSONEngine jsonEngine = inr e →
  (is_Some (Facts e !! name) ↔ name ∈ map Fact_Name (JSON_Facts jsonEngine)).
Proof.
  intros Hload. split.
  - intros [p (fact & Hp & <-)%(loaded_lookup _ _ _ _ Hload)].
    apply list_elem_of_fmap_2. apply list_elem_of_lookup. by exists p.
  - intros (fact & -> & [p Hp]%list_elem_of_lookup)%list_elem_of_fmap.
    exists p. apply (loaded_lookup _ _ _ _ Hload). by exists fact.
Qed.

Lemma resolvable_translates (facts : gmap string FactPtr) (names : list string) :
  (∀ name, name ∈ names → is_Some (facts !! name)) →
  ∃ ptrs, Forall2 (fun name ptr => facts !! name = Some ptr) names ptrs.
Proof.
  induction names as [|n rest IH]; intros Hall.
  - exists []. constructor.
  - destruct (Hall n (list_elem_of_here _ _)) as [p Hp].
    destruct IH as [ptrs Hptrs]; [intros x Hx; apply Hall; by right|].
    exists (p :: ptrs). by constructor.
Qed.

Lemma translates_resolvable (facts : gmap string FactPtr) (names : list string)
    (ptrs : list FactPtr) (name : string) :
  Forall2 (fun name ptr => facts !! name = Some ptr) names ptrs →
  name ∈ names → is_Some (facts !! name).
Proof.
  intros Hall Hin.
  induction Hall as [|n p ns ps Hn _ IH]; [by apply elem_of_nil in Hin|].
  apply elem_of_cons in Hin as [->|Hin]; [by eexists | by apply IH].
Qed.

(** Among the descriptions without nil entries the loader accepts
    those whose fact names are pairwise distinct and whose rules mention
    only listed fact names. *)
Lemma fromJSONEngine_accepts_listed (jsonEngine : JSONInterpreter) :
  (∃ e, Interpreter._fromJSONEngine jsonEngine = inr e)
  ↔ NoDup (map Fact_Name (JSON_Facts jsonEngine))
    ∧ Forall (resolvable (map Fact_Name (JSON_Facts jsonEngine)))
        (JSON_Rules jsonEngine).
Proof.
  split.
  - intros [e Hload]. pose proof Hload as [Hfacts Hrules]%fromJSONEngine_inr.
    split.
    + apply (registerFacts_inr (JSON_Facts jsonEngine) 0 ∅). by eexists.
    + apply buildRules_inr in Hrules as (new & _ & Hall).
      clear -Hall Hload. induction Hall as [|jrule rule jrules rules Htr _ IH];
        constructor; [|exact IH].
      destruct Htr as (_ & Hconds & Hder). split.
      * intros c Hc. apply (loaded_key _ _ _ Hload).
        apply (translates_resolvable _ _ _ _ Hconds Hc).
      * apply (loaded_key _ _ _ Hload). by eexists.
  - intros [Hnodup Hrules].
    destruct (proj2 (registerFacts_inr (JSON_Facts jsonEngine) 0 ∅)) as [facts Hfacts].
    { split; [exact Hnodup | intros fact _; apply lookup_empty]. }
    assert (Hkey : ∀ name, name ∈ map Fact_Name (JSON_Facts jsonEngine) →
                           is_Some (facts !! name)).
    { intros name (fact & -> & [p Hp]%list_elem_of_lookup)%list_elem_of_fmap.
      exists p. apply (registerFacts_lookup _ _ _ _ Hfacts). right. by exists p, fact. }
    assert (Hnew : ∃ new, Forall2 (translates facts) (JSON_Rules jsonEngine) new).
    { clear -Hrules Hkey.
      induction Hrules as [|jrule jrules [Hconds Hder] _ [new Hnew]].
      - exists []. constructor.
      - destruct (resolvable_translates facts (JSONRule_Conditionals jrule))
          as [ptrs Hptrs].
        { intros c Hc. apply Hkey, Hconds, Hc. }
        destruct (Hkey _ Hder) as [d Hd].
        exists (mkRule (JSONRule_Name jrule) ptrs d :: new).
        constructor; [|exact Hnew]. by split. }
    destruct Hnew as [new Hnew].
    exists (mkInterpreter facts new). apply fromJSONEngine_inr. simpl.
    split; [exact Hfacts|]. apply buildRules_inr. by exists new.
Qed.

Lemma decoded_registerFacts (facts : list Fact) (ptr : FactPtr)
    (known : gmap string FactPtr) :
  DecodedInterpreter.registerFacts (Some <$> facts) ptr known
  = Returns (Interpreter.registerFacts facts ptr known).
Proof.
  revert ptr known. induction facts as [|fact rest IH]; intros ptr known;
    [reflexivity|].
  rewrite fmap_cons. cbn [DecodedInterpreter.registerFacts Interpreter.registerFacts].
  destruct (known !! Fact_Name fact); [reflexivity | apply IH].
Qed.

Lemma decoded_buildRules (facts : gmap string FactPtr) (knownRules : gset string)
    (jrules : list JSONRule) (rules : list Rule) :
  DecodedInterpreter.buildRules facts knownRules (Some <$> jrules) rules
  = Returns (Interpreter.buildRules facts knownRules jrules rules).
Proof.
  revert rules. induction jrules as [|jrule rest IH]; intros rules; [reflexivity|].
  rewrite fmap_cons. cbn [DecodedInterpreter.buildRules Interpreter.buildRules].
  destruct (bool_decide (JSONRule_Name jrule ∈ knownRules)); [reflexivity|].
  destruct (Interpreter.resolveConditionals facts jrule
              (JSONRule_Conditionals jrule) []); [reflexivity|].
  destruct (facts !! JSONRule_Derivation jrule); [apply IH | reflexivity].
Qed.

Lemma decoded_fromJSONEngine (jsonEngine : JSONInterpreter) :
  DecodedInterpreter._fromJSONEngine (decoded jsonEngine)
  = Returns (Interpreter._fromJSONEngine jsonEngine).
Proof.
  unfold DecodedInterpreter._fromJSONEngine, Interpreter._fromJSONEngine, decoded.
  simpl. rewrite decoded_registerFacts.
  destruct (Interpreter.registerFacts (JSON_Facts jsonEngine) 0 ∅) as [err|facts];
    [reflexivity|].
  rewrite decoded_buildRules.
  destruct (Interpreter.buildRules facts ∅ (JSON_Rules jsonEngine) []); reflexivity.
Qed.

Lemma registerFacts_no_nil (raw : list (option Fact)) (ptr : FactPtr)
    (known result : gmap string FactPtr) :
  DecodedInterpreter.registerFacts raw ptr known = Returns (inr result) →
  ∃ facts, raw = Some <$> facts.
Proof.
  revert ptr known. induction raw as [|[fact|] rest IH]; intros ptr known.
  - intros _. by exists [].
  - cbn [DecodedInterpreter.registerFacts].
    destruct (known !! Fact_Name fact); [discriminate|].
    intros [facts ->]%IH. by exists (fact :: facts).
  - discriminate.
Qed.

Lemma buildRules_no_nil (facts : gmap string FactPtr) (knownRules : gset string)
    (raw : list (option JSONRule)) (rules result : list Rule) :
  DecodedInterpreter.buildRules facts knownRules raw rules = Returns (inr result) →
  ∃ jrules, raw = Some <$> jrules.
Proof.
  revert rules. induction raw as [|[jrule|] rest IH]; intros rules.
  - intros _. by exists [].
  - cbn [DecodedInterpreter.buildRules].
    destruct (bool_decide (JSONRule_Name jrule ∈ knownRules)); [discriminate|].
    destruct (Interpreter.resolveConditionals facts jrule
                (JSONRule_Conditionals jrule) []); [discriminate|].
    destruct (facts !! JSONRule_Derivation jrule); [|discriminate].
    intros [jrules ->]%IH. by exists (jrule :: jrules).
  - discriminate.
Qed.

(** X13.  The loader accepts a decoded description exactly when none
    of its fact and rule entries is nil, the fact names are pairwise
    distinct and every rule mentions only listed fact names as
    antecedents and consequent; a nil first fact entry makes it
    panic.  The names of the rules play no part: nothing is ever
    stored in [knownRules], so two rules of one name are accepted. *)
Theorem fromJSONEngine_accepts (jsonEngine : DecodedJSON) :
  ((∃ e, DecodedInterpreter._fromJSONEngine jsonEngine = Returns (inr e))
   ↔ ∃ listed,
       jsonEngine = decoded listed
       ∧ NoDup (map Fact_Name (JSON_Facts listed))
       ∧ Forall (resolvable (map Fact_Name (JSON_Facts listed))) (JSON_Rules listed))
  ∧ (∀ listed,
       DecodedInterpreter._fromJSONEngine (decoded listed)
       = Returns (Interpreter._fromJSONEngine listed))
  ∧ (∀ rest, DecodedInterpreter._fromJSONEngine
               (mkDecodedJSON (None :: rest) (Decoded_Rules jsonEngine)) = Panics).
Proof.
  split; [|split; [apply decoded_fromJSONEngine | reflexivity]].
  split.
  - intros [e Hload].
    assert (Hlisted : ∃ listed, jsonEngine = decoded listed).
    { unfold DecodedInterpreter._fromJSONEngine in Hload.
      destruct (DecodedInterpreter.registerFacts (Decoded_Facts jsonEngine) 0 ∅)
        as [[err|facts]|] eqn:Hfacts; [discriminate| |discriminate].
      destruct (DecodedInterpreter.buildRules facts ∅ (Decoded_Rules jsonEngine) [])
        as [[err|rules]|] eqn:Hrules; [discriminate| |discriminate].
      apply registerFacts_no_nil in Hfacts as [fs Hfs].
      apply buildRules_no_nil in Hrules as [rs Hrs].
      exists (mkJSONInterpreter fs rs). destruct jsonEngine as [df dr].
      simpl in *. unfold decoded. simpl. congruence. }
    destruct Hlisted as [listed ->]. exists listed. split; [reflexivity|].
    apply fromJSONEngine_accepts_listed. exists e.
    rewrite decoded_fromJSONEngine in Hload. congruence.
  - intros (listed & -> & Hok).
    apply fromJSONEngine_accepts_listed in Hok as [e He].
    exists e. rewrite decoded_fromJSONEngine, He. reflexivity.
Qed.

(** X14.  The loader turns the rule descriptions into the rules one for
    one and in order: the rule at a position has the name of the
    description at that position, its antecedents are the facts of the
    antecedent names, in order, and its consequent is the fact of the
    consequent name. *)
Theorem loaded_rules_translate (jsonEngine : JSONInterpreter) (e : Interpreter) :
  Interpreter._fromJSONEngine jsonEngine = inr e →
  Forall2 (translates (Facts e)) (JSON_Rules jsonEngine) (Rules e).
Proof.
  intros [_ Hrules]%fromJSONEngine_inr.
  apply buildRules_inr in Hrules as (new & -> & Hall). exact Hall.
Qed.

Lemma loaded_rules_translate_witness :
  Forall2 (translates (Facts kb_chained)) (JSON_Rules json_chained) (Rules kb_chained).
Proof.
  apply (loaded_rules_translate json_chained kb_chained). vm_compute. reflexivity.
Defined.

(** X15.  Every fact a loaded rule refers to, as antecedent or as
    consequent, is the address of a fact of the description: it lies
    below the number of facts, which is the size of the fact map. *)
Theorem loaded_pointers_valid (jsonEngine : JSONInterpreter) (e : Interpreter)
    (rule : Rule) :
  Interpreter._fromJSONEngine jsonEngine = inr e →
  rule ∈ Rules e →
  size (Facts e) = length (JSON_Facts jsonEngine)
  ∧ Derivation rule < size (Facts e)
  ∧ ∀ c, c ∈ Conditionals rule → c < size (Facts e).
Proof.
  intros Hload Hrule.
  pose proof (fromJSONEngine_size _ _ Hload) as Hsize.
  destruct (fromJSONEngine_registered _ _ Hload rule Hrule) as [[name Hname] Hconds].
  assert (Hvalid : ∀ n p, Facts e !! n = Some p → p < size (Facts e)).
  { intros n p (fact & Hp & _)%(loaded_lookup _ _ _ _ Hload).
    rewrite Hsize. apply (lookup_lt_Some _ _ _ Hp). }
  split; [exact Hsize|]. split; [apply (Hvalid _ _ Hname)|].
  intros c Hc. destruct (Hconds c Hc) as [n Hn]. apply (Hvalid _ _ Hn).
Qed.

Lemma loaded_pointers_valid_witness :
  size (Facts kb_basic) = length (JSON_Facts json_basic)
  ∧ Derivation (mkRule "R1" [0; 1] 2) < size (Facts kb_basic)
  ∧ ∀ c, c ∈ Conditionals (mkRule "R1" [0; 1] 2) → c < size (Facts kb_basic).
Proof.
  apply (loaded_pointers_valid json_basic kb_basic (mkRule "R1" [0; 1] 2)).
  - vm_compute. reflexivity.
  - left.
Defined.

(** X16.  On a loaded knowledge base pairwise distinct true-fact names
    resolve to pairwise distinct facts: the working set [forward]
    starts from holds no fact twice. *)
Theorem distinct_names_distinct_facts (jsonEngine : JSONInterpreter)
    (e : Interpreter) (names : list string) (queryName : string)
    (trueFacts : list FactPtr) (queryFact : FactPtr) :
  Interpreter._fromJSONEngine jsonEngine = inr e →
  Interpreter._convertNames e names queryName = inr (trueFacts, queryFact) →
  NoDup names →
  NoDup trueFacts.
Proof.
  intros Hload (_ & Hall & _)%convertNames_inr Hnodup.
  induction Hall as [|n p ns ps Hn Hall IH]; [constructor|].
  apply NoDup_cons in Hnodup as [Hfresh Hnodup].
  apply NoDup_cons. split; [|by apply IH].
  intros Hp. apply Hfresh. clear IH Hnodup Hfresh.
  induction Hall as [|n' p' ns' ps' Hn' _ IH]; [by apply elem_of_nil in Hp|].
  apply elem_of_cons in Hp as [<-|Hp]; [|right; by apply IH].
  apply elem_of_cons. left.
  apply (loaded_lookup _ _ _ _ Hload) in Hn as (fact & Hfact & <-).
  apply (loaded_lookup _ _ _ _ Hload) in Hn' as (fact' & Hfact' & <-).
  congruence.
Qed.

Lemma distinct_names_distinct_facts_witness : NoDup [0; 1].
Proof.
  apply (distinct_names_distinct_facts json_basic kb_basic ["f1"; "f2"] "f3" [0; 1] 2).
  - vm_compute. reflexivity.
  - vm_compute. reflexivity.
  - apply NoDup_cons. split; [|apply NoDup_singleton].
    intros H%list_elem_of_singleton. discriminate.
Defined.

(** ** The loader of [Engine] *)

(** X17.  The loader of [Engine] never makes the fact map, so it
    panics on every decoded description that has an entry in its list
    of facts, nil or not.  Without facts no name resolves: when the
    first rule entry is nil the loader panics, when it is a rule the
    loader returns an error, and the description without facts and
    rules is the only one that loads. *)
Theorem Engine_fromJSONEngine_outcome (jsonEngine : DecodedJSON) :
  match Decoded_Facts jsonEngine, Decoded_Rules jsonEngine with
  | _ :: _, _ => DecodedEngine._fromJSONEngine jsonEngine = Panics
  | [], None :: _ => DecodedEngine._fromJSONEngine jsonEngine = Panics
  | [], Some _ :: _ =>
      ∃ err, DecodedEngine._fromJSONEngine jsonEngine = Returns (inl err)
  | [], [] =>
      DecodedEngine._fromJSONEngine jsonEngine = Returns (inr (mkInterpreter ∅ []))
  end.
Proof.
  unfold DecodedEngine._fromJSONEngine.
  destruct (Decoded_Facts jsonEngine) as [|[fact|] facts]; [|reflexivity..].
  destruct (Decoded_Rules jsonEngine) as [|[jrule|] jrules]; [reflexivity| |reflexivity].
  simpl. rewrite bool_decide_eq_false_2 by apply not_elem_of_empty.
  destruct (JSONRule_Conditionals jrule) as [|c cs]; simpl.
  - rewrite lookup_empty. by eexists.
  - rewrite lookup_empty. by eexists.
Qed.

(** ** The flag value of the command line *)

Lemma append_String (x : ascii) (a b : string) :
  String x a +:+ b = String x (a +:+ b).
Proof. reflexivity. Qed.

Lemma append_empty (b : string) : "" +:+ b = b.
Proof. reflexivity. Qed.

Lemma append_empty_r (a : string) : a +:+ "" = a.
Proof.
  induction a as [|x a IH]; [reflexivity|]. rewrite append_String, IH. reflexivity.
Qed.

Lemma string_append_assoc (a b c : string) : (a +:+ b) +:+ c = a +:+ (b +:+ c).
Proof.
  induction a as [|x a IH]; [reflexivity|]. rewrite !append_String, IH. reflexivity.
Qed.

Lemma appendFacts_app (trFacts pieces : list string) :
  Cmd.appendFacts trFacts pieces = trFacts ++ pieces.
Proof.
  revert trFacts. induction pieces as [|piece rest IH]; intros trFacts; simpl.
  - symmetry. apply app_nil_r.
  - rewrite IH, <- app_assoc. reflexivity.
Qed.

Lemma Split_nonempty (value : string) : Cmd.Split value ≠ [].
Proof.
  induction value as [|c rest IH]; simpl; [discriminate|].
  destruct (Ascii.eqb c ","%char); [discriminate|].
  destruct (Cmd.Split rest); discriminate.
Qed.

Lemma joinComma_String (c : ascii) (piece : string) (pieces : list string) :
  joinComma (String c piece :: pieces) = String c (joinComma (piece :: pieces)).
Proof. destruct pieces; reflexivity. Qed.

Lemma joinComma_Split (value : string) : joinComma (Cmd.Split value) = value.
Proof.
  induction value as [|c rest IH]; simpl; [reflexivity|].
  destruct (Ascii.eqb_spec c ","%char) as [->|_].
  - pose proof (Split_nonempty rest) as Hne.
    destruct (Cmd.Split rest) as [|piece pieces] eqn:Hsplit; [congruence|].
    change (joinComma ("" :: piece :: pieces))
      with ("" +:+ "," +:+ joinComma (piece :: pieces)).
    rewrite IH. reflexivity.
  - pose proof (Split_nonempty rest) as Hne.
    destruct (Cmd.Split rest) as [|piece pieces] eqn:Hsplit; [congruence|].
    rewrite joinComma_String, IH. reflexivity.
Qed.

Lemma Split_no_comma (value piece : string) :
  piece ∈ Cmd.Split value → hasComma piece = false.
Proof.
  revert piece. induction value as [|c rest IH]; intros piece; simpl.
  - intros ->%list_elem_of_singleton. reflexivity.
  - destruct (Ascii.eqb c ","%char) eqn:Hc.
    + intros [->|Hin]%elem_of_cons; [reflexivity | by apply IH].
    + pose proof (Split_nonempty rest) as Hne.
      destruct (Cmd.Split rest) as [|first pieces]; [congruence|].
      intros [->|Hin]%elem_of_cons.
      * simpl. rewrite Hc. apply IH. left.
      * apply IH. by right.
Qed.

Lemma writeAll_append (strBuilder : string) (trFacts : list string) :
  Cmd.writeAll strBuilder trFacts = strBuilder +:+ Cmd.writeAll "" trFacts.
Proof.
  revert strBuilder. induction trFacts as [|trFact rest IH]; intros strBuilder; simpl.
  - symmetry. apply append_empty_r.
  - rewrite (IH (strBuilder +:+ trFact)), (IH ("" +:+ trFact)).
    rewrite append_empty, string_append_assoc. reflexivity.
Qed.

(** X18.  The flag can be set once.  [Set] on an empty value stores the
    pieces of the argument between its commas and returns no error;
    [Set] on a value that holds a name returns an error and leaves the
    value as it is.  After any call the value holds at least one name,
    the empty argument giving one empty name, so every later call
    fails. *)
Theorem trueFacts_Set_once (trFacts : list string) (value : string) :
  Cmd.trueFacts_Set trFacts value
  = match trFacts with
    | [] => (Cmd.Split value, None)
    | _ :: _ => (trFacts, Some "true facts flag already have been set")
    end
  ∧ fst (Cmd.trueFacts_Set trFacts value) ≠ []
  ∧ ∀ later,
      Cmd.trueFacts_Set (fst (Cmd.trueFacts_Set trFacts value)) later
      = (fst (Cmd.trueFacts_Set trFacts value),
         Some "true facts flag already have been set").
Proof.
  assert (Hset : Cmd.trueFacts_Set trFacts value
                 = match trFacts with
                   | [] => (Cmd.Split value, None)
                   | _ :: _ => (trFacts, Some "true facts flag already have been set")
                   end).
  { unfold Cmd.trueFacts_Set. destruct trFacts; simpl; [|reflexivity].
    rewrite appendFacts_app. reflexivity. }
  assert (Hne : fst (Cmd.trueFacts_Set trFacts value) ≠ []).
  { rewrite Hset. destruct trFacts; simpl; [apply Split_nonempty | discriminate]. }
  split; [exact Hset|]. split; [exact Hne|].
  intros later. unfold Cmd.trueFacts_Set at 1.
  destruct (fst (Cmd.trueFacts_Set trFacts value)); [congruence | reflexivity].
Qed.

(** X19.  What [Set] stores on an empty value is the argument cut at
    its commas: no stored name holds a comma, and the stored names
    joined by commas are the argument again. *)
Theorem trueFacts_Set_round_trip (value : string) :
  joinComma (fst (Cmd.trueFacts_Set [] value)) = value
  ∧ ∀ name, name ∈ fst (Cmd.trueFacts_Set [] value) → hasComma name = false.
Proof.
  unfold Cmd.trueFacts_Set. simpl. rewrite appendFacts_app. simpl.
  split; [apply joinComma_Split | apply Split_no_comma].
Qed.

(** X20.  [String] writes the names one after the other without a
    separator: for a value that [Set] stored it gives the argument with
    its commas removed, not the argument. *)
Theorem trueFacts_String_drops_commas (value : string) :
  Cmd.trueFacts_String (fst (Cmd.trueFacts_Set [] value)) = dropCommas value.
Proof.
  unfold Cmd.trueFacts_Set, Cmd.trueFacts_String. simpl.
  rewrite appendFacts_app. simpl.
  induction value as [|c rest IH]; simpl; [reflexivity|].
  destruct (Ascii.eqb c ","%char).
  - simpl. exact IH.
  - pose proof (Split_nonempty rest) as Hne.
    destruct (Cmd.Split rest) as [|piece pieces]; [congruence|].
    simpl in *. rewrite append_empty in *.
    rewrite writeAll_append in IH. rewrite writeAll_append.
    rewrite append_String, IH. reflexivity.
Qed.

(** ** Loading and forward chaining together *)

Lemma translated_consequents_NoDup (jsonEngine : JSONInterpreter) (e : Interpreter)
    (jrules : list JSONRule) (rules : list Rule) :
  Interpreter._fromJSONEngine jsonEngine = inr e →
  Forall2 (translates (Facts e)) jrules rules →
  NoDup (map JSONRule_Derivation jrules) →
  NoDup (map Derivation rules).
Proof.
  intros Hload Hall.
  induction Hall as [|jrule rule jrules rules (_ & _ & Hder) Hall IH]; simpl;
    [constructor|].
  intros [Hfresh Hnodup]%NoDup_cons. apply NoDup_cons. split; [|by apply IH].
  intros Hin. apply Hfresh. clear IH Hnodup Hfresh.
  induction Hall as [|jrule' rule' jrules' rules' (_ & _ & Hder') _ IH]; simpl in *;
    [by apply elem_of_nil in Hin|].
  apply elem_of_cons in Hin as [Heq|Hin]; [|right; by apply IH].
  apply elem_of_cons. left.
  rewrite <- Heq in Hder'.
  apply (loaded_lookup _ _ _ _ Hload) in Hder as (fact & Hfact & <-).
  apply (loaded_lookup _ _ _ _ Hload) in Hder' as (fact' & Hfact' & <-).
  congruence.
Qed.

(** X21.  Loading and forward chaining together are correct on clean
    input.  For a description the loader accepts in which no two rules
    name the same consequent, and pairwise distinct true-fact names that
    resolve, [Forward] returns within one round more than there are
    rules, without error, and its verdict is [true] exactly when the
    query can be derived from the true facts by the rules. *)
Theorem Forward_decides_derivability (jsonEngine : JSONInterpreter)
    (e : Interpreter) (names : list string) (queryName : string)
    (trueFacts : list FactPtr) (queryFact : FactPtr) (fuel : nat) :
  Interpreter._fromJSONEngine jsonEngine = inr e →
  Interpreter._convertNames e names queryName = inr (trueFacts, queryFact) →
  NoDup names →
  NoDup (map JSONRule_Derivation (JSON_Rules jsonEngine)) →
  length (Rules e) < fuel →
  ∃ isDerived trail,
    Interpreter.Forward fuel e names queryName = Some (isDerived, trail, None)
    ∧ (isDerived = true ↔ Derivable (Rules e) trueFacts queryFact).
Proof.
  intros Hload Hconv Hnames Hrules Hfuel.
  assert (Hfacts : NoDup trueFacts).
  { pose proof Hconv as (_ & Hall & _)%convertNames_inr.
    clear -Hload Hall Hnames.
    induction Hall as [|n p ns ps Hn Hall IH]; [constructor|].
    apply NoDup_cons in Hnames as [Hfresh Hnodup].
    apply NoDup_cons. split; [|by apply IH].
    intros Hp. apply Hfresh. clear IH Hnodup Hfresh.
    induction Hall as [|n' p' ns' ps' Hn' _ IH]; [by apply elem_of_nil in Hp|].
    apply elem_of_cons in Hp as [<-|Hp]; [|right; by apply IH].
    apply elem_of_cons. left.
    apply (loaded_lookup _ _ _ _ Hload) in Hn as (fact & Hfact & <-).
    apply (loaded_lookup _ _ _ _ Hload) in Hn' as (fact' & Hfact' & <-).
    congruence. }
  assert (Hcons : NoDup (map Derivation (Rules e))).
  { apply (translated_consequents_NoDup jsonEngine e (JSON_Rules jsonEngine));
      [exact Hload | | exact Hrules].
    pose proof Hload as [_ Hbuild]%fromJSONEngine_inr.
    apply buildRules_inr in Hbuild as (new & -> & Hall). exact Hall. }
  destruct (forward_decides_derivability e trueFacts queryFact fuel Hfacts Hcons Hfuel)
    as (isDerived & usedRules & Hforward & Hiff).
  exists isDerived, (map Name usedRules).
  unfold Interpreter.Forward. rewrite Hconv, Hforward. split; [reflexivity | exact Hiff].
Qed.

Lemma Forward_decides_derivability_witness :
  ∃ isDerived trail,
    Interpreter.Forward 3 kb_chained ["a"] "c" = Some (isDerived, trail, None)
    ∧ (isDerived = true ↔ Derivable (Rules kb_chained) [0] 2).
Proof.
  apply (Forward_decides_derivability json_chained kb_chained ["a"] "c" [0] 2 3).
  - vm_compute. reflexivity.
  - vm_compute. reflexivity.
  - apply NoDup_singleton.
  - simpl. apply NoDup_cons. split; [|apply NoDup_singleton].
    intros H%list_elem_of_singleton. discriminate.
  - simpl. lia.
Defined.

(** X22.  The trail of [forward] does not depend on the query: the
    loop saturates the working set and records every rule it fires,
    whether or not the rule bears on the query, and looks at the query
    only when it returns. *)
Theorem forward_trail_ignores_query (e : Interpreter) (trueFacts : list FactPtr)
    (query query' : FactPtr) (fuel : nat) :
  snd <$> Interpreter.forward fuel e trueFacts query
  = snd <$> Interpreter.forward fuel e trueFacts query'.
Proof.
  unfold Interpreter.forward. generalize (@nil Rule) as usedRules.
  revert trueFacts.
  induction fuel as [|fuel IH]; intros trueFacts usedRules; [reflexivity|].
  rewrite !forward_loop_round.
  destruct (fired (Rules e) trueFacts) as [|rule others]; [reflexivity | apply IH].
Qed.
